(** * Archlyze: the folder-import filter pipeline of [FolderImportModal.tsx]

    A shallow embedding of the pure computations of
    [components/FolderImportModal.tsx] (the [useMemo] bodies [ignoreFilter],
    [allowedFiles], [availableExtensions], [finalFilesToImport], the default
    selection effect, [totalIgnored] and the extension-chip sort), together
    with the properties the specification states about them.

    JavaScript strings are embedded as [string]; the paths and names the
    statements use are ASCII.  A [Record<string, number>] whose key order is
    observed ([Object.keys], [Object.entries]) is an association list in
    insertion order; a [Set<string>] that is only queried with [has] is a
    [gset string]. *)

From Stdlib Require Import Ascii ZArith.
From stdpp Require Import base list strings gmap sorting.

#[local] Set Warnings "-clear-no-such-hyp".

Local Open Scope Z_scope.
Local Open Scope stdpp_scope.

(** ** JavaScript primitives used by the component *)

Module Js.

(** [s.includes(c)] for a one-character needle. *)
Fixpoint includes (c : ascii) (s : string) : bool :=
  match s with
  | EmptyString => false
  | String a s' => if Ascii.eqb a c then true else includes c s'
  end.

(** [s.split(sep)] for a one-character separator: never the empty array,
    and the empty string splits to one empty piece. *)
Fixpoint split (sep : ascii) (s : string) : list string :=
  match s with
  | EmptyString => [EmptyString]
  | String a s' =>
      if Ascii.eqb a sep then EmptyString :: split sep s'
      else match split sep s' with
           | piece :: rest => String a piece :: rest
           | [] => [String a EmptyString]
           end
  end.

(** [parts.join(sep)]. *)
Fixpoint join (sep : string) (parts : list string) : string :=
  match parts with
  | [] => ""
  | [p] => p
  | p :: rest => p +:+ sep +:+ join sep rest
  end.

(** [parts.slice(1)]. *)
Definition slice1 {A} (parts : list A) : list A := drop 1 parts.

(** [parts.pop()]: the last element, [undefined] on the empty array. *)
Definition pop {A} (parts : list A) : option A := last parts.

(** ['.' + v] where [v] is a string or [undefined]. *)
Definition dot_plus (v : option string) : string :=
  match v with
  | Some e => "." +:+ e
  | None => ".undefined"
  end.

(** Truthiness of a string: only the empty string is falsy. *)
Definition truthy (s : string) : bool :=
  match s with
  | EmptyString => false
  | String _ _ => true
  end.

(** A plain object used as a string-keyed record.  Keys that are not
    canonical array indices are enumerated in insertion order, which is
    what the association list keeps. *)
Definition Record_ (V : Type) : Type := list (string * V).

Fixpoint get {V} (o : Record_ V) (k : string) : option V :=
  match o with
  | [] => None
  | (k', v) :: o' => if String.eqb k' k then Some v else get o' k
  end.

(** [o[k] = v]: overwrite in place, or append a new key. *)
Fixpoint set {V} (o : Record_ V) (k : string) (v : V) : Record_ V :=
  match o with
  | [] => [(k, v)]
  | (k', v') :: o' =>
      if String.eqb k' k then (k', v) :: o' else (k', v') :: set o' k v
  end.

Definition keys {V} (o : Record_ V) : list string := o.*1.
Definition entries {V} (o : Record_ V) : list (string * V) := o.

(** [n || 0] on a possibly undefined number. *)
Definition or_zero (v : option nat) : nat :=
  match v with
  | Some n => n
  | None => 0%nat
  end.

(** [arr.sort(cmp)]: the sort is stable, so with a consistent comparator
    the result is the one of a stable insertion sort.  [x] is placed in
    front of the first [y] it does not have to follow. *)
Fixpoint sort_insert {A} (cmp : A → A → Z) (x : A) (l : list A) : list A :=
  match l with
  | [] => [x]
  | y :: l' =>
      if Z.leb (cmp x y) 0 then x :: y :: l' else y :: sort_insert cmp x l'
  end.

Definition sort {A} (cmp : A → A → Z) (l : list A) : list A :=
  foldr (sort_insert cmp) [] l.

End Js.

(** ** The ignore matcher *)

(** The component obtains its matcher from the npm package [ignore], whose
    code is not part of the sources.  The matcher below is written from the
    specification's description of [build] and [isIgnored], with the names
    the specification uses. *)

Module PathIgnoreFilter.

(** Modelled from the spec: the glob tokens of a pattern ([ignore]'s
    pattern compiler is missing).  [*] is any run of characters except
    [/], [**] any run of characters including [/], [?] a single
    character, [[...]] a character class; a class lists characters and
    [lo-hi] ranges and is complemented by a leading [!] or [^]. *)
Inductive token : Type :=
| TChar (c : ascii)
| TQuestion
| TStar
| TGlobstar
| TClass (negate : bool) (ranges : list (ascii * ascii)).

(** Modelled from the spec: the body of a character class, read after the
    closing bracket was found. *)
Fixpoint class_ranges (body : list ascii) : list (ascii * ascii) :=
  match body with
  | [] => []
  | lo :: rest =>
      match rest with
      | dash :: hi :: rest' =>
          if Ascii.eqb dash "-" then (lo, hi) :: class_ranges rest'
          else (lo, lo) :: class_ranges rest
      | _ => (lo, lo) :: class_ranges rest
      end
  end.

(** Modelled from the spec: the class token of a bracketed body (the
    package's pattern compiler is missing); a leading [!] or [^]
    complements the class. *)
Definition class_token (body : list ascii) : token :=
  match body with
  | c :: body' =>
      if Ascii.eqb c "!" || Ascii.eqb c "^"
      then TClass true (class_ranges body')
      else TClass false (class_ranges body)
  | [] => TClass false []
  end.

(** Modelled from the spec: the token of a character outside a class
    (the package's pattern compiler is missing). *)
Definition plain_token (c : ascii) : token :=
  if Ascii.eqb c "*" then TStar
  else if Ascii.eqb c "?" then TQuestion
  else TChar c.

(** Modelled from the spec: one left-to-right pass over the glob.
    [cls] is [Some body] while inside a character class ([body] holds the
    characters read so far, last first).  The glob ends inside a class
    exactly when the class is unterminated, and then there are no
    tokens. *)
Fixpoint scan (cls : option (list ascii)) (g : string)
    : option (list token) :=
  match g with
  | EmptyString =>
      match cls with
      | None => Some []
      | Some _ => None
      end
  | String c g' =>
      match cls with
      | None =>
          if Ascii.eqb c "[" then scan (Some []) g'
          else cons (plain_token c) <$> scan None g'
      | Some body =>
          if Ascii.eqb c "]"
          then cons (class_token (reverse body)) <$> scan None g'
          else scan (Some (c :: body)) g'
      end
  end.

(** Modelled from the spec: two adjacent stars are the [**] token (the
    package's pattern compiler is missing). *)
Fixpoint coalesce (ts : list token) : list token :=
  match ts with
  | TStar :: rest =>
      match rest with
      | TStar :: rest' => TGlobstar :: coalesce rest'
      | _ => TStar :: coalesce rest
      end
  | t :: rest => t :: coalesce rest
  | [] => []
  end.

(** Modelled from the spec: the tokens of a glob, none when a character
    class is unterminated (the package's pattern compiler is missing). *)
Definition glob_tokens (g : string) : option (list token) :=
  coalesce <$> scan None g.

(** Modelled from the spec: membership of a character in a class (the
    package's matcher is missing). *)
Definition in_class (negate : bool) (ranges : list (ascii * ascii))
    (c : ascii) : bool :=
  xorb negate
    (existsb (λ r, Nat.leb (nat_of_ascii r.1) (nat_of_ascii c)
                   && Nat.leb (nat_of_ascii c) (nat_of_ascii r.2))
             ranges).

(** Modelled from the spec: whether the whole of [s] is matched by the
    token list (the package's matcher is missing). *)
Fixpoint glob_match (ts : list token) : string → bool :=
  match ts with
  | [] => λ s, match s with EmptyString => true | String _ _ => false end
  | t :: ts' =>
      match t with
      | TChar c => λ s,
          match s with
          | String a s' => Ascii.eqb a c && glob_match ts' s'
          | EmptyString => false
          end
      | TQuestion => λ s,
          match s with
          | String _ s' => glob_match ts' s'
          | EmptyString => false
          end
      | TClass negate ranges => λ s,
          match s with
          | String a s' => in_class negate ranges a && glob_match ts' s'
          | EmptyString => false
          end
      | TStar =>
          fix star (s : string) : bool :=
            glob_match ts' s
            || match s with
               | String a s' => negb (Ascii.eqb a "/") && star s'
               | EmptyString => false
               end
      | TGlobstar =>
          fix star (s : string) : bool :=
            glob_match ts' s
            || match s with
               | String _ s' => star s'
               | EmptyString => false
               end
      end
  end.

(** Modelled from the spec: the pattern record that [build] parses a rule
    line into. *)
Record Pattern : Type := mkPattern {
  glob : string;
  anchoredToRoot : bool;
  directoryOnly : bool;
  negated : bool;
  sourceOrder : nat
}.

(** Modelled from the spec: the opaque matcher that [build] returns (the
    package's [Ignore] object is missing): the parsed rules in source
    order. *)
Record CompiledMatcher : Type := mkMatcher { rules : list Pattern }.

(** Modelled from the spec: the one error of [build]; it carries the
    offending line. *)
Inductive PatternParseError : Type :=
| UnterminatedClass (line : string).

(** Modelled from the spec: the outcome of an operation that can fail
    with [PatternParseError]. *)
Inductive result (A : Type) : Type :=
| Ok (a : A)
| Fail (e : PatternParseError).
Arguments Ok {A} a.
Arguments Fail {A} e.

(** Modelled from the spec: sequencing of operations that can fail; the
    first failure is the result. *)
Definition bind {A B} (r : result A) (k : A → result B) : result B :=
  match r with
  | Ok a => k a
  | Fail e => Fail e
  end.

(** Modelled from the spec: blank lines (the package's line filter is
    missing): a line of spaces, tabs and carriage returns only. *)
Definition is_blank_char (c : ascii) : bool :=
  Ascii.eqb c " " || Ascii.eqb c "009" || Ascii.eqb c "013".

(** Modelled from the spec: a blank line, which [build] ignores. *)
Fixpoint is_blank (line : string) : bool :=
  match line with
  | EmptyString => true
  | String c line' => is_blank_char c && is_blank line'
  end.

(** Modelled from the spec: a comment line, one that starts with [#],
    which [build] ignores. *)
Definition is_comment (line : string) : bool :=
  match line with
  | String c _ => Ascii.eqb c "#"
  | EmptyString => false
  end.

(** Modelled from the spec: removing an optional leading marker ([!] or
    [/]) from a line; the flag tells whether it was there. *)
Definition strip_leading (c : ascii) (s : string) : bool * string :=
  match s with
  | String a s' => if Ascii.eqb a c then (true, s') else (false, s)
  | EmptyString => (false, s)
  end.

(** Modelled from the spec: removing an optional trailing marker (the
    [/] of a directory-only pattern) from a line. *)
Fixpoint strip_trailing (c : ascii) (s : string) : bool * string :=
  match s with
  | EmptyString => (false, EmptyString)
  | String a s' =>
      match s' with
      | EmptyString =>
          if Ascii.eqb a c then (true, EmptyString) else (false, s)
      | String _ _ =>
          let r := strip_trailing c s' in (r.1, String a r.2)
      end
  end.

(** Modelled from the spec: what becomes of one line of a pattern
    source: ignored or skipped, fatal, or parsed into a pattern. *)
Inductive line_result : Type :=
| Skipped
| Rejected
| Parsed (p : Pattern).

(** Modelled from the spec: parsing one line.  Blank lines and comment
    lines are ignored; [!] negates, a leading [/] anchors to the root, a
    trailing [/] makes the pattern directory-only.  A line that leaves no
    glob is malformed and skipped; an unterminated character class is
    the one fatal case. *)
Definition parse_line (order : nat) (line : string) : line_result :=
  if is_blank line || is_comment line then Skipped
  else
    let neg := strip_leading "!" line in
    let anch := strip_leading "/" neg.2 in
    let dir := strip_trailing "/" anch.2 in
    match dir.2 with
    | EmptyString => Skipped
    | String _ _ =>
        match glob_tokens dir.2 with
        | None => Rejected
        | Some _ => Parsed (mkPattern dir.2 anch.1 dir.1 neg.1 order)
        end
    end.

(** Modelled from the spec: the effect of one line on the matcher being
    built; a parsed rule takes the next source order. *)
Definition add_line (acc : result CompiledMatcher) (line : string)
    : result CompiledMatcher :=
  bind acc (λ m,
    match parse_line (length (rules m)) line with
    | Skipped => Ok m
    | Rejected => Fail (UnterminatedClass line)
    | Parsed p => Ok (mkMatcher (rules m ++ [p]))
    end).

(** Modelled from the spec: the newline-separated lines of the pattern
    sources, in order. *)
Definition source_lines (patternSources : list string) : list string :=
  patternSources ≫= Js.split "010".

(** Modelled from the spec: adding pattern sources to a matcher, in
    order (the package's [add] is missing). *)
Definition add (m : CompiledMatcher) (patternSources : list string)
    : result CompiledMatcher :=
  foldl add_line (Ok m) (source_lines patternSources).

(** Modelled from the spec: the matcher with no rules (the package's
    [ignore()] is missing). *)
Definition empty : CompiledMatcher := mkMatcher [].

(** Modelled from the spec: [build(patternSources)] (the package's
    [ignore().add(...)] is missing). *)
Definition build (patternSources : list string) : result CompiledMatcher :=
  add empty patternSources.

(** Modelled from the spec: a pattern containing [/] (or anchored to the
    root) is matched against the full relative path, any other against
    the basename, at any depth. *)
Definition full_path_mode (p : Pattern) : bool :=
  anchoredToRoot p || Js.includes "/" (glob p).

(** Modelled from the spec: whether the glob matches the path named by
    [segs], the leading segments of the candidate path that name the path
    itself or one of its ancestor directories. *)
Definition glob_hits (p : Pattern) (segs : list string) : bool :=
  match glob_tokens (glob p) with
  | None => false
  | Some ts =>
      if full_path_mode p then glob_match ts (Js.join "/" segs)
      else glob_match ts (default "" (last segs))
  end.

(** Modelled from the spec: a rule matches a path when its glob matches
    the path or an ancestor directory of it (the specification's defaults
    scenario has the pattern [node_modules] ignore
    [node_modules/pkg/index.js]); a directory-only rule can only match an
    ancestor directory. *)
Definition rule_matches (p : Pattern) (path : string) : bool :=
  let segs := Js.split "/" path in
  let deepest :=
    if directoryOnly p then (length segs - 1)%nat else length segs in
  existsb (λ k, glob_hits p (take k segs)) (seq 1 deepest).

(** Modelled from the spec: [isIgnored(matcher, relativePath)] (the
    package's [ignores] is missing): the rules are evaluated in source
    order and every match overrides the outcome so far; no match at all
    leaves the path not ignored. *)
Definition isIgnored (m : CompiledMatcher) (path : string) : bool :=
  foldl (λ ignored r,
           if rule_matches r path then negb (negated r) else ignored)
        false (rules m).

End PathIgnoreFilter.

(** ** The component's data and derived values *)

(** The two fields of a DOM [File] that the component reads. *)
Record File : Type := mkFile {
  name : string;
  webkitRelativePath : string
}.

#[global] Instance File_eq_dec : EqDecision File.
Proof. solve_decision. Defined.

Module FolderImportModal.

(** The patterns handed to [ignore().add([...])]. *)
Definition defaultPatterns : list string :=
  [".git"; "node_modules"; "target"; "dist"; "build"; "coverage";
   ".DS_Store"; "*.log"; "*.lock"; "package-lock.json"; "yarn.lock"].

(** [ignoreFilter]: the defaults, then the discovered [.gitignore]
    content when there is one (and it is not the empty string). *)
Definition ignoreFilter (gitIgnoreContent : option string)
    : PathIgnoreFilter.result PathIgnoreFilter.CompiledMatcher :=
  PathIgnoreFilter.bind
    (PathIgnoreFilter.add PathIgnoreFilter.empty defaultPatterns)
    (λ ig,
       match gitIgnoreContent with
       | Some content =>
           if Js.truthy content then PathIgnoreFilter.add ig [content]
           else PathIgnoreFilter.Ok ig
       | None => PathIgnoreFilter.Ok ig
       end).

(** [file.webkitRelativePath.split('/').slice(1).join('/')]. *)
Definition relativePath (file : File) : string :=
  let pathParts := Js.split "/" (webkitRelativePath file) in
  Js.join "/" (Js.slice1 pathParts).

(** The callback of [files.filter] in [allowedFiles]:
    [relativePath && !ignoreFilter.ignores(relativePath)]. *)
Definition keeps (ignores : string → bool) (file : File) : bool :=
  Js.truthy (relativePath file) && negb (ignores (relativePath file)).

(** [allowedFiles]; the matcher is represented by its [ignores] method. *)
Definition allowedFiles (respectGitIgnore : bool) (ignores : string → bool)
    (files : list File) : list File :=
  if respectGitIgnore then filter (λ file, keeps ignores file) files
  else files.

(** The extension token, computed identically in [availableExtensions]
    and [finalFilesToImport]. *)
Definition ext (fname : string) : string :=
  if Js.includes "." fname then Js.dot_plus (Js.pop (Js.split "." fname))
  else "no-ext".

(** [availableExtensions]: the [counts] object after the [forEach]. *)
Definition availableExtensions (allowed : list File) : Js.Record_ nat :=
  foldl (λ counts f,
           Js.set counts (ext (name f))
                  (Js.or_zero (Js.get counts (ext (name f))) + 1)%nat)
        [] allowed.

(** The fixed allow-list of the default-selection effect. *)
Definition commonCodeExts : list string :=
  [".rs"; ".js"; ".ts"; ".jsx"; ".tsx"; ".py"; ".go"; ".java"; ".c";
   ".cpp"; ".h"; ".css"; ".html"; ".vue"; ".svelte"; ".json"; ".toml";
   ".md"].

(** The test in the default-selection effect. *)
Definition isDefaultExt (e : string) : bool :=
  bool_decide (e ∈ commonCodeExts) || String.eqb e ".toml"
  || String.eqb e ".json".

(** [newSelection] as the default-selection effect leaves it. *)
Definition newSelection (available : Js.Record_ nat) : gset string :=
  foldl (λ sel e, if isDefaultExt e then sel ∪ {[ e ]} else sel)
        ∅ (Js.keys available).

(** [finalFilesToImport]. *)
Definition finalFilesToImport (allowed : list File)
    (selectedExtensions : gset string) : list File :=
  filter (λ file, ext (name file) ∈ selectedExtensions) allowed.

(** [handleToggleExt]. *)
Definition handleToggleExt (selectedExtensions : gset string) (e : string)
    : gset string :=
  if bool_decide (e ∈ selectedExtensions) then selectedExtensions ∖ {[ e ]}
  else selectedExtensions ∪ {[ e ]}.

(** [totalIgnored = files.length - allowedFiles.length]. *)
Definition totalIgnored (files allowed : list File) : Z :=
  Z.of_nat (length files) - Z.of_nat (length allowed).

(** The number shown in the "Ignored" cell. *)
Definition shownIgnored (respectGitIgnore : bool) (files allowed : list File)
    : Z :=
  if respectGitIgnore then totalIgnored files allowed else 0.

(** The order of the extension chips:
    [Object.entries(availableExtensions).sort((a, b) => b[1] - a[1])]. *)
Definition chipCompare (a b : string * nat) : Z :=
  Z.of_nat b.2 - Z.of_nat a.2.

Definition extensionChips (available : Js.Record_ nat)
    : list (string * nat) :=
  Js.sort chipCompare (Js.entries available).

End FolderImportModal.

(** ** The specification's wording, for comparison with the code *)

Module Spec.

(** Lower-casing, on the ASCII letters. *)
Definition lower_char (c : ascii) : ascii :=
  let n := nat_of_ascii c in
  if Nat.leb 65 n && Nat.leb n 90 then ascii_of_nat (n + 32) else c.

Fixpoint lower (s : string) : string :=
  match s with
  | EmptyString => EmptyString
  | String c s' => String (lower_char c) (lower s')
  end.

(** The substring after the last occurrence of [c] (all of [s] when [c]
    does not occur). *)
Fixpoint after_last (c : ascii) (s : string) : string :=
  match s with
  | EmptyString => EmptyString
  | String a s' =>
      if Js.includes c s' then after_last c s'
      else if Ascii.eqb a c then s' else s
  end.

(** The extension token as the specification words it: the substring
    after the last [.], lower-cased, prefixed with [.]; [no-ext] when the
    name has no [.]. *)
Definition extension_token (fname : string) : string :=
  if Js.includes "." fname then "." +:+ lower (after_last "." fname)
  else "no-ext".

(** The display order as the specification words it: descending count,
    ties broken by ascending token. *)
Definition count_then_token (a b : string * nat) : Prop :=
  (b.2 < a.2)%nat ∨ (a.2 = b.2 ∧ String.leb a.1 b.1 = true).

(** The rule that decides a path: the last one, in source order, that
    matches it. *)
Definition deciding_rule (m : PathIgnoreFilter.CompiledMatcher)
    (path : string) : option PathIgnoreFilter.Pattern :=
  last (filter (λ r, PathIgnoreFilter.rule_matches r path)
               (PathIgnoreFilter.rules m)).

(** The rules are numbered by their position. *)
Definition in_source_order (m : PathIgnoreFilter.CompiledMatcher) : Prop :=
  ∀ i r, PathIgnoreFilter.rules m !! i = Some r →
         PathIgnoreFilter.sourceOrder r = i.

(** The pattern sources that follow the defaults: the discovered
    ignore-file content, when there is any. *)
Definition discovered (gitIgnoreContent : option string) : list string :=
  match gitIgnoreContent with
  | Some content => if Js.truthy content then [content] else []
  | None => []
  end.

(** The display order the code establishes: descending count. *)
Definition count_desc (a b : string * nat) : Prop := (b.2 ≤ a.2)%nat.

(** The entries of a list that carry the count [n], in their order. *)
Definition with_count (n : nat) (l : list (string * nat))
    : list (string * nat) :=
  filter (λ e, e.2 = n) l.

(** The number of files whose extension token is [e]. *)
Definition occurrences (e : string) (allowed : list File) : nat :=
  length (filter (λ f, FolderImportModal.ext (name f) = e) allowed).

(** A character class that is opened and never closed. *)
Definition unterminated_class (line : string) : Prop :=
  ∃ pre post,
    line = pre +:+ String "[" post ∧ Js.includes "]" post = false.

End Spec.

(** ** The selection controls of the modal and the import in [App] *)

Module ImportControls.

(** The "Select All" button:
    [new Set(Object.keys(availableExtensions))]. *)
Definition selectAll (available : Js.Record_ nat) : gset string :=
  list_to_set (Js.keys available).

(** The "Clear" button: [new Set()]. *)
Definition clearSelection : gset string := ∅.

(** The test [Object.keys(availableExtensions).length === 0] that shows
    "No files matching current ignore rules." in place of the chips. *)
Definition noFilesMessage (available : Js.Record_ nat) : bool :=
  Nat.eqb (length (Js.keys available)) 0.

(** The import button is disabled when
    [finalFilesToImport.length === 0]. *)
Definition importDisabled (final : list File) : bool :=
  Nat.eqb (length final) 0.

(** The body of the [forEach] in [availableExtensions]:
    [counts[ext] = (counts[ext] || 0) + 1]. *)
Definition tally_step (counts : Js.Record_ nat) (f : File) : Js.Record_ nat :=
  Js.set counts (FolderImportModal.ext (name f))
         (Js.or_zero (Js.get counts (FolderImportModal.ext (name f))) + 1)%nat.

(** The sum of the counts shown on the chips whose extension satisfies
    [P]. *)
Definition chipTotal (P : string → Prop) `{!∀ e, Decision (P e)}
    (chips : list (string * nat)) : nat :=
  sum_list (filter (λ entry, P entry.1) chips).*2.

(** The elements of a list in the order of their first occurrence;
    [seen] are the elements met before. *)
Fixpoint firstOccurrences (seen : list string) (l : list string)
    : list string :=
  match l with
  | [] => []
  | e :: l' =>
      if bool_decide (e ∈ seen) then firstOccurrences seen l'
      else e :: firstOccurrences (seen ++ [e]) l'
  end.

End ImportControls.

Module App.

(** [handleImportConfirm]: the language of an imported file,
    ['.' + file.name.split('.').pop()]. *)
Definition language (fname : string) : string :=
  Js.dot_plus (Js.pop (Js.split "." fname)).

(** [handleImportConfirm]: the path of an imported file,
    [file.webkitRelativePath || file.name]. *)
Definition path (file : File) : string :=
  if Js.truthy (webkitRelativePath file) then webkitRelativePath file
  else name file.

End App.

(** ** Calls that can throw *)

(** The same computations with the failures kept: a call that throws has no
    value ([None]), and the failure of a call is the failure of the
    computation around it. *)

Module Throwing.

(** Modelled from the spec: matching one rule, where a glob that has no
    tokens (an unterminated character class) cannot be matched and is an
    error (the package's matcher is missing). *)
Definition rule_matches (p : PathIgnoreFilter.Pattern) (path : string)
    : option bool :=
  match PathIgnoreFilter.glob_tokens (PathIgnoreFilter.glob p) with
  | None => None
  | Some _ => Some (PathIgnoreFilter.rule_matches p path)
  end.

(** Modelled from the spec: [isIgnored(matcher, relativePath)] with the
    failures kept (the package's [ignores] is missing): the rules in
    source order, as in [PathIgnoreFilter.isIgnored]; an error on a rule
    is the error of the evaluation. *)
Definition isIgnored (m : PathIgnoreFilter.CompiledMatcher) (path : string)
    : option bool :=
  foldl (λ (acc : option bool) (r : PathIgnoreFilter.Pattern),
           ignored ← acc;
           matched ← rule_matches r path;
           Some (if matched : bool then negb (PathIgnoreFilter.negated r)
                 else ignored))
        (Some false) (PathIgnoreFilter.rules m).

(** [arr.filter(cb)] with a callback that can throw: the elements are
    visited in order and the first throw ends the call. *)
Fixpoint filter {A} (cb : A → option bool) (l : list A) : option (list A) :=
  match l with
  | [] => Some []
  | x :: l' =>
      keep ← cb x;
      rest ← filter cb l';
      Some (if keep : bool then x :: rest else rest)
  end.

(** The callback of [files.filter] in [allowedFiles] when
    [ignoreFilter.ignores] can throw:
    [relativePath && !ignoreFilter.ignores(relativePath)]; [&&] does not
    evaluate its right operand when the left one is falsy. *)
Definition keeps (ignores : string → option bool) (file : File)
    : option bool :=
  if Js.truthy (FolderImportModal.relativePath file)
  then negb <$> ignores (FolderImportModal.relativePath file)
  else Some false.

(** [allowedFiles] when [ignoreFilter.ignores] can throw. *)
Definition allowedFiles (respectGitIgnore : bool)
    (ignores : string → option bool) (files : list File)
    : option (list File) :=
  if respectGitIgnore then filter (keeps ignores) files else Some files.

(** The extension token, with [None] when [pop] is [undefined] (the token
    would then be built from [undefined]). *)
Definition ext (fname : string) : option string :=
  if Js.includes "." fname
  then (λ e, "." +:+ e) <$> Js.pop (Js.split "." fname)
  else Some "no-ext".

End Throwing.

Import PathIgnoreFilter FolderImportModal.

(** * Properties *)

(** ** Splitting and joining *)

Section js_strings.
Implicit Types (s pre suf : string) (sep c : ascii).

Lemma split_not_nil sep s : Js.split sep s ≠ [].
Proof.
  destruct s as [|a s]; simpl; [done|].
  destruct (Ascii.eqb a sep); [done|].
  by destruct (Js.split sep s).
Qed.

Lemma split_no_sep sep s : Js.includes sep s = false → Js.split sep s = [s].
Proof.
  induction s as [|a s IH]; simpl; [done|].
  destruct (Ascii.eqb a sep); [done|].
  intros Hs. by rewrite (IH Hs).
Qed.

Lemma split_app_sep sep pre suf :
  Js.split sep (pre +:+ String sep suf) = Js.split sep pre ++ Js.split sep suf.
Proof.
  induction pre as [|a pre IH]; simpl.
  - by rewrite Ascii.eqb_refl.
  - destruct (Ascii.eqb a sep); [by rewrite IH|].
    rewrite IH.
    destruct (Js.split sep pre) as [|piece rest] eqn:Hp; [|done].
    by destruct (split_not_nil sep pre).
Qed.

Lemma includes_app_sep c pre suf : Js.includes c (pre +:+ String c suf) = true.
Proof.
  induction pre as [|a pre IH]; simpl.
  - by rewrite Ascii.eqb_refl.
  - by destruct (Ascii.eqb a c).
Qed.

Lemma includes_true_split c s :
  Js.includes c s = true →
  ∃ pre suf, s = pre +:+ String c suf ∧ Js.includes c suf = false.
Proof.
  induction s as [|a s IH]; simpl; [done|].
  destruct (Js.includes c s) eqn:Hs.
  - intros _. destruct (IH eq_refl) as (pre & suf & -> & Hsuf).
    by exists (String a pre), suf.
  - destruct (Ascii.eqb a c) eqn:Ha; [|done].
    intros _. apply Ascii.eqb_eq in Ha as ->. by exists "", s.
Qed.

Lemma after_last_app_sep c pre suf :
  Js.includes c suf = false → Spec.after_last c (pre +:+ String c suf) = suf.
Proof.
  intros Hsuf. induction pre as [|a pre IH]; simpl.
  - by rewrite Hsuf, Ascii.eqb_refl.
  - by rewrite includes_app_sep.
Qed.

Lemma pop_split_app_sep sep pre suf :
  Js.includes sep suf = false →
  Js.pop (Js.split sep (pre +:+ String sep suf)) = Some suf.
Proof.
  intros Hsuf. unfold Js.pop.
  by rewrite split_app_sep, (split_no_sep _ _ Hsuf), last_snoc.
Qed.

End js_strings.

(** ** The allowed files *)

Section allowed.
Variable ignores : string → bool.
Implicit Types (file f : File) (files : list File).

Lemma relativePath_no_slash f :
  Js.includes "/" (webkitRelativePath f) = false → relativePath f = "".
Proof.
  intros Hf. unfold relativePath. by rewrite (split_no_sep _ _ Hf).
Qed.

Lemma truthy_spec (s : string) : Js.truthy s ↔ s ≠ "".
Proof. by destruct s. Qed.

Lemma keeps_spec f :
  keeps ignores f ↔ relativePath f ≠ "" ∧ ignores (relativePath f) = false.
Proof.
  unfold keeps. rewrite andb_True, truthy_spec, negb_True.
  destruct (ignores (relativePath f)); simpl; intuition congruence.
Qed.

Lemma not_keeps_spec f :
  ¬ keeps ignores f ↔ relativePath f = "" ∨ ignores (relativePath f) = true.
Proof.
  rewrite keeps_spec. destruct (decide (relativePath f = "")) as [->|];
    destruct (ignores _); intuition congruence.
Qed.

Lemma length_filter_split (P : File → Prop) `{!∀ f, Decision (P f)} files :
  length files
  = (length (filter P files) + length (filter (λ f, ¬ P f) files))%nat.
Proof.
  rewrite <-length_app. symmetry.
  apply Permutation_length, filter_app_complement.
Qed.

Lemma length_filter_mono (P Q : File → Prop)
    `{!∀ f, Decision (P f), !∀ f, Decision (Q f)} files :
  (∀ f, P f → Q f) →
  (length (filter P files) ≤ length (filter Q files))%nat.
Proof.
  intros HPQ. rewrite <-(list_filter_filter_l P Q) by done.
  apply length_filter.
Qed.

Lemma allowedFiles_off files : allowedFiles false ignores files = files.
Proof. done. Qed.

Lemma allowedFiles_on files :
  allowedFiles true ignores files
  = filter (λ f, relativePath f ≠ "" ∧ ignores (relativePath f) = false)
           files.
Proof. apply list_filter_iff, keeps_spec. Qed.

Lemma totalIgnored_count files :
  totalIgnored files (allowedFiles true ignores files)
  = Z.of_nat (length (filter (λ f, relativePath f = ""
                                   ∨ ignores (relativePath f) = true) files)).
Proof.
  unfold totalIgnored, allowedFiles.
  rewrite (length_filter_split (λ f, keeps ignores f) files) at 1.
  rewrite (list_filter_iff (λ f, ¬ keeps ignores f) _ files not_keeps_spec).
  lia.
Qed.

End allowed.

(** ** The matcher: source order and the deciding rule *)

Section matcher.
Implicit Types (m : CompiledMatcher) (r : Pattern) (path line : string).

Lemma last_filter_cons {A} (P : A → Prop) `{!∀ x, Decision (P x)}
    (x : A) (l : list A) :
  last (filter P (x :: l))
  = match last (filter P l) with
    | Some y => Some y
    | None => if decide (P x) then Some x else None
    end.
Proof.
  rewrite filter_cons. destruct (decide (P x)); [|by destruct (last _)].
  destruct (filter P l) as [|y k] eqn:Hk; [done|].
  rewrite last_cons. by destruct (last (y :: k)).
Qed.

Lemma foldl_override path (l : list Pattern) (init : bool) :
  foldl (λ ignored r, if rule_matches r path then negb (negated r)
                      else ignored) init l
  = match last (filter (λ r, rule_matches r path) l) with
    | Some r => negb (negated r)
    | None => init
    end.
Proof.
  revert init. induction l as [|r l IH]; intros init; [done|].
  simpl foldl. rewrite IH, last_filter_cons.
  destruct (last (filter _ l)); [done|].
  by destruct (rule_matches r path).
Qed.

Lemma isIgnored_deciding_rule m path :
  isIgnored m path
  = match Spec.deciding_rule m path with
    | Some r => negb (negated r)
    | None => false
    end.
Proof. apply foldl_override. Qed.

(** The last element of a filtered list splits the list. *)
Lemma last_filter_Some {A} (P : A → Prop) `{!∀ x, Decision (P x)}
    (l : list A) (x : A) :
  last (filter P l) = Some x ↔
  ∃ l1 l2, l = l1 ++ x :: l2 ∧ P x ∧ Forall (λ y, ¬ P y) l2.
Proof.
  split.
  - induction l as [|y l IH]; [done|].
    rewrite last_filter_cons. destruct (last (filter P l)) as [z|] eqn:Hz.
    + intros [= ->]. destruct (IH eq_refl) as (l1 & l2 & -> & ? & ?).
      by exists (y :: l1), l2.
    + destruct (decide (P y)); [|done]. intros [= ->].
      exists [], l. split_and!; [done..|].
      apply Forall_forall. intros z Hz' HPz.
      assert (z ∈ filter P l) as Hin by by apply list_elem_of_filter.
      destruct (filter P l); [by apply elem_of_nil in Hin|].
      by rewrite last_cons in Hz; destruct (last _).
  - intros (l1 & l2 & -> & HP & Hl2).
    rewrite filter_app, filter_cons_True by done.
    assert (filter P l2 = []) as ->.
    { clear -Hl2. induction Hl2; [done|]. by rewrite filter_cons_False. }
    by rewrite last_snoc.
Qed.

Lemma last_filter_None {A} (P : A → Prop) `{!∀ x, Decision (P x)}
    (l : list A) :
  last (filter P l) = None ↔ Forall (λ y, ¬ P y) l.
Proof.
  rewrite last_None. split.
  - intros Hnil. apply Forall_forall. intros y Hy HPy.
    by apply (filter_nil_not_elem_of P l y).
  - intros Hl. induction Hl; [done|]. by rewrite filter_cons_False.
Qed.

(** With the rules numbered by position, the last match is the match of
    greatest source order. *)
Lemma deciding_rule_greatest m path r :
  Spec.in_source_order m →
  Spec.deciding_rule m path = Some r ↔
  r ∈ rules m ∧ rule_matches r path
  ∧ ∀ r', r' ∈ rules m → rule_matches r' path →
          (sourceOrder r' ≤ sourceOrder r)%nat.
Proof.
  intros Hord. unfold Spec.deciding_rule.
  assert (∀ l1 x l2, rules m = l1 ++ x :: l2 → sourceOrder x = length l1)
    as Hmid.
  { intros l1 x l2 Hm. apply Hord. rewrite Hm. by apply list_lookup_middle. }
  assert (∀ l1 x l2 y, rules m = l1 ++ x :: l2 → y ∈ l1 →
                       (sourceOrder y < sourceOrder x)%nat) as Hlt.
  { intros l1 x l2 y Hm [i Hi]%list_elem_of_lookup.
    rewrite (Hmid _ _ _ Hm).
    rewrite (Hord i y).
    - by apply lookup_lt_Some in Hi.
    - rewrite Hm. by apply lookup_app_l_Some. }
  rewrite last_filter_Some. split.
  - intros (l1 & l2 & Hm & Hr & Hl2). split_and!; [|done|].
    + rewrite Hm. set_solver.
    + intros r' Hr' Hm'. rewrite Hm in Hr'.
      apply elem_of_app in Hr' as [Hr'|Hr'].
      { pose proof (Hlt _ _ _ _ Hm Hr'). lia. }
      apply elem_of_cons in Hr' as [->|Hr']; [done|].
      rewrite Forall_forall in Hl2. by destruct (Hl2 _ Hr').
  - intros (Hin & Hr & Hmax).
    destruct (last (filter (λ r0, rule_matches r0 path) (rules m)))
      as [r0|] eqn:Hlast.
    + apply last_filter_Some in Hlast as (l1 & l2 & Hm & Hr0 & Hl2).
      exists l1, l2. split_and!; [|done..].
      rewrite Hm in Hin. apply elem_of_app in Hin as [Hin|Hin].
      { pose proof (Hlt _ _ _ _ Hm Hin).
        assert (r0 ∈ rules m) as Hin0 by (rewrite Hm; set_solver).
        pose proof (Hmax r0 Hin0 Hr0). lia. }
      apply elem_of_cons in Hin as [->|Hin]; [done|].
      rewrite Forall_forall in Hl2. by destruct (Hl2 _ Hin).
    + apply last_filter_None in Hlast.
      rewrite Forall_forall in Hlast. by destruct (Hlast _ Hin).
Qed.

End matcher.

(** ** Parsing: which lines are fatal, which are skipped *)

Section parsing.
Implicit Types (m : CompiledMatcher) (g line : string) (c : ascii).

Lemma unterminated_nil : ¬ Spec.unterminated_class "".
Proof. intros (pre & post & Heq & _). by destruct pre. Qed.

Lemma unterminated_cons_open g :
  Spec.unterminated_class (String "[" g)
  ↔ Js.includes "]" g = false ∨ Spec.unterminated_class g.
Proof.
  split.
  - intros (pre & post & Heq & Hpost). destruct pre as [|a pre].
    + left. by injection Heq as ->.
    + right. injection Heq as _ ->. by exists pre, post.
  - intros [Hg|(pre & post & -> & Hpost)].
    + by exists "", g.
    + by exists (String "[" pre), post.
Qed.

Lemma unterminated_cons_other c g :
  Ascii.eqb c "[" = false →
  Spec.unterminated_class (String c g) ↔ Spec.unterminated_class g.
Proof.
  intros Hc. split.
  - intros (pre & post & Heq & Hpost). destruct pre as [|a pre].
    + injection Heq as -> _. by rewrite Ascii.eqb_refl in Hc.
    + injection Heq as _ ->. by exists pre, post.
  - intros (pre & post & -> & Hpost). by exists (String c pre), post.
Qed.

(** The pass ends inside a class exactly when a bracket stays open. *)
Lemma scan_None (cls : option (list ascii)) g :
  scan cls g = None
  ↔ (is_Some cls ∧ Js.includes "]" g = false) ∨ Spec.unterminated_class g.
Proof.
  revert cls. induction g as [|c g IH]; intros cls.
  - pose proof unterminated_nil. destruct cls; simpl.
    + split; [left; eauto|done].
    + split; [done|]. intros [[[? [=]] _]|?]; done.
  - simpl. destruct cls as [body|].
    + destruct (Ascii.eqb c "]") eqn:Hclose.
      * apply Ascii.eqb_eq in Hclose as ->.
        rewrite fmap_None, IH, (unterminated_cons_other "]") by done.
        split; [intros [[[? [=]] _]|?]; by right|].
        intros [[_ [=]]|?]. by right.
      * rewrite IH. destruct (Ascii.eqb c "[") eqn:Hopen.
        -- apply Ascii.eqb_eq in Hopen as ->.
           rewrite unterminated_cons_open. intuition eauto.
        -- rewrite (unterminated_cons_other c) by done. intuition eauto.
    + destruct (Ascii.eqb c "[") eqn:Hopen.
      * apply Ascii.eqb_eq in Hopen as ->.
        rewrite IH, unterminated_cons_open.
        split; [intros [[_ ?]|?]; right; auto|].
        intros [[[? [=]] _]|[?|?]]; [left|right]; eauto.
      * rewrite fmap_None, IH, (unterminated_cons_other c) by done.
        split; (intros [[[? [=]] _]|?]; by right).
Qed.

Lemma glob_tokens_None g :
  glob_tokens g = None ↔ Spec.unterminated_class g.
Proof.
  unfold glob_tokens. rewrite fmap_None, scan_None.
  split; [intros [[[? [=]] _]|?]; done|by right].
Qed.

Lemma unterminated_strip_leading c line :
  Ascii.eqb c "[" = false →
  Spec.unterminated_class (strip_leading c line).2
  ↔ Spec.unterminated_class line.
Proof.
  intros Hc. destruct line as [|a line]; simpl; [done|].
  destruct (Ascii.eqb a c) eqn:Ha; simpl; [|done].
  apply Ascii.eqb_eq in Ha as ->. by rewrite unterminated_cons_other.
Qed.

Lemma includes_strip_trailing c a line :
  Ascii.eqb c a = false →
  Js.includes a (strip_trailing c line).2 = Js.includes a line.
Proof.
  intros Hc. induction line as [|b line IH]; [done|].
  simpl. destruct line as [|b' line].
  - destruct (Ascii.eqb b c) eqn:Hb; [|done].
    apply Ascii.eqb_eq in Hb as ->. simpl. by rewrite Hc.
  - cbn [snd Js.includes]. by rewrite IH.
Qed.

Lemma unterminated_strip_trailing c line :
  Ascii.eqb c "[" = false → Ascii.eqb c "]" = false →
  Spec.unterminated_class (strip_trailing c line).2
  ↔ Spec.unterminated_class line.
Proof.
  intros Hopen Hclose. induction line as [|b line IH]; [done|].
  simpl. destruct line as [|b' line].
  - destruct (Ascii.eqb b c) eqn:Hb; [|done].
    apply Ascii.eqb_eq in Hb as ->. simpl.
    by rewrite unterminated_cons_other.
  - cbn [snd]. destruct (Ascii.eqb b "[") eqn:Hb.
    + apply Ascii.eqb_eq in Hb as ->.
      by rewrite !unterminated_cons_open, IH, includes_strip_trailing.
    + by rewrite !(unterminated_cons_other b), IH.
Qed.

(** A line is fatal exactly when it is a rule line (neither blank nor a
    comment) with an unterminated character class. *)
Lemma parse_line_Rejected n line :
  parse_line n line = Rejected
  ↔ is_blank line = false ∧ is_comment line = false
    ∧ Spec.unterminated_class line.
Proof.
  unfold parse_line.
  destruct (is_blank line); [simpl; intuition congruence|].
  destruct (is_comment line); [simpl; intuition congruence|]. simpl.
  rewrite <-(unterminated_strip_leading "!" line) by done.
  rewrite <-(unterminated_strip_leading "/" (strip_leading "!" line).2)
    by done.
  rewrite <-(unterminated_strip_trailing "/") by done.
  destruct (strip_trailing "/" _).2 as [|a g] eqn:Hg.
  { pose proof unterminated_nil. intuition congruence. }
  rewrite <-glob_tokens_None.
  destruct (glob_tokens (String a g)); intuition congruence.
Qed.

Lemma parse_line_Skipped_order n n' line :
  parse_line n line = Skipped → parse_line n' line = Skipped.
Proof.
  unfold parse_line. destruct (_ || _); [done|].
  destruct (strip_trailing _ _).2; [done|].
  by destruct (glob_tokens _).
Qed.

Lemma parse_line_Parsed_order n line r :
  parse_line n line = Parsed r → sourceOrder r = n.
Proof.
  unfold parse_line. destruct (_ || _); [done|].
  destruct (strip_trailing _ _).2; [done|].
  destruct (glob_tokens _); [|done]. by intros [= <-].
Qed.

End parsing.

(** ** Building a matcher *)

Section building.
Implicit Types (m : CompiledMatcher) (line : string) (lines : list string).

Lemma foldl_add_line_Fail e lines : foldl add_line (Fail e) lines = Fail e.
Proof. by induction lines. Qed.

Lemma source_lines_app (srcs1 srcs2 : list string) :
  source_lines (srcs1 ++ srcs2) = source_lines srcs1 ++ source_lines srcs2.
Proof. apply bind_app. Qed.

Lemma source_lines_single line :
  Js.includes "010" line = false → source_lines [line] = [line].
Proof.
  intros Hline. unfold source_lines. simpl.
  by rewrite (split_no_sep _ _ Hline).
Qed.

Lemma add_app m (srcs1 srcs2 : list string) :
  add m (srcs1 ++ srcs2) = bind (add m srcs1) (λ m', add m' srcs2).
Proof.
  unfold add. rewrite source_lines_app, foldl_app.
  destruct (foldl add_line (Ok m) (source_lines srcs1)); simpl; [done|].
  apply foldl_add_line_Fail.
Qed.

(** A failure names a line that was rejected. *)
Lemma add_lines_Fail m lines e :
  foldl add_line (Ok m) lines = Fail e →
  ∃ line n, line ∈ lines ∧ e = UnterminatedClass line
            ∧ parse_line n line = Rejected.
Proof.
  revert m. induction lines as [|line lines IH]; intros m; [done|].
  simpl. destruct (parse_line (length (rules m)) line) as [| |p] eqn:Hp.
  - intros (l & n & ? & ? & ?)%IH. exists l, n. set_solver.
  - rewrite foldl_add_line_Fail. intros [= <-].
    exists line, (length (rules m)). set_solver.
  - intros (l & n & ? & ? & ?)%IH. exists l, n. set_solver.
Qed.

(** Without a rejected line the fold succeeds; the rules it appends are
    parsed from the lines and keep the numbering by position. *)
Lemma add_lines_Ok m lines :
  (∀ line n, line ∈ lines → parse_line n line ≠ Rejected) →
  ∃ m', foldl add_line (Ok m) lines = Ok m'
        ∧ (Spec.in_source_order m → Spec.in_source_order m')
        ∧ ∀ r, r ∈ rules m' →
               r ∈ rules m
               ∨ ∃ line, line ∈ lines
                         ∧ parse_line (sourceOrder r) line = Parsed r.
Proof.
  revert m. induction lines as [|line lines IH]; intros m Hlines.
  { exists m. split_and!; auto. }
  simpl. destruct (parse_line (length (rules m)) line) as [| |p] eqn:Hp.
  - destruct (IH m) as (m' & -> & Hord & Hin); [set_solver|].
    exists m'. split_and!; [done..|].
    intros r [?|(l & ? & ?)]%Hin; [by left|right]. exists l. set_solver.
  - destruct (Hlines line (length (rules m))); [set_solver|done].
  - destruct (IH (mkMatcher (rules m ++ [p])))
      as (m' & -> & Hord & Hin); [set_solver|].
    pose proof (parse_line_Parsed_order _ _ _ Hp) as Hn.
    exists m'. split_and!; [done| |].
    + intros Hm. apply Hord. intros i r. simpl.
      rewrite lookup_app_Some, list_lookup_singleton_Some.
      intros [?|(? & ? & <-)]; [by apply Hm|]. lia.
    + intros r [Hr|(l & ? & ?)]%Hin.
      * simpl in Hr. apply elem_of_app in Hr as [?|Hr]; [by left|].
        apply list_elem_of_singleton in Hr as ->. right.
        exists line. rewrite Hn. set_solver.
      * right. exists l. set_solver.
Qed.

(** A skipped line leaves the matcher as it was. *)
Lemma add_line_Skipped (acc : result CompiledMatcher) line :
  parse_line 0 line = Skipped → add_line acc line = acc.
Proof.
  intros Hline. destruct acc as [m|e]; [|done]. simpl.
  by rewrite (parse_line_Skipped_order 0 (length (rules m)) line Hline).
Qed.

Lemma build_skips (srcs1 srcs2 : list string) line :
  Js.includes "010" line = false →
  parse_line 0 line = Skipped →
  build (srcs1 ++ line :: srcs2) = build (srcs1 ++ srcs2).
Proof.
  intros Hnl Hline. unfold build, add.
  change (line :: srcs2) with ([line] ++ srcs2).
  rewrite !source_lines_app.
  rewrite (source_lines_single _ Hnl), !foldl_app. simpl.
  by rewrite add_line_Skipped.
Qed.

(** [ignoreFilter] is [build] on the defaults followed by the discovered
    content. *)
Lemma ignoreFilter_build gitIgnoreContent :
  ignoreFilter gitIgnoreContent
  = build (defaultPatterns ++ Spec.discovered gitIgnoreContent).
Proof.
  unfold ignoreFilter, build. rewrite add_app.
  destruct (add empty defaultPatterns) as [ig|e]; [|done]. simpl.
  destruct gitIgnoreContent as [content|]; simpl; [|done].
  by destruct (Js.truthy content).
Qed.

End building.

(** ** The extension tally, the default selection and the chips *)

Section tally.
Implicit Types (o : Js.Record_ nat) (k e : string) (allowed : list File).

Lemma get_set o k v k' :
  Js.get (Js.set o k v) k' = if String.eqb k k' then Some v else Js.get o k'.
Proof.
  induction o as [|[k0 v0] o IH]; simpl; [done|].
  destruct (String.eqb k0 k) eqn:Hk0; simpl.
  - apply String.eqb_eq in Hk0 as ->. by destruct (String.eqb k k').
  - rewrite IH. destruct (String.eqb k0 k') eqn:Hk0'; [|done].
    apply String.eqb_eq in Hk0' as ->. by rewrite String.eqb_sym, Hk0.
Qed.

Lemma keys_set o k v k' :
  k' ∈ Js.keys (Js.set o k v) ↔ k' = k ∨ k' ∈ Js.keys o.
Proof.
  unfold Js.keys. induction o as [|[k0 v0] o IH]; simpl.
  - set_solver.
  - destruct (String.eqb k0 k) eqn:Hk0; simpl.
    + apply String.eqb_eq in Hk0 as ->. set_solver.
    + rewrite !elem_of_cons, IH. tauto.
Qed.

Lemma tally_step_count o allowed e :
  Js.or_zero (Js.get (foldl (λ counts f,
      Js.set counts (ext (name f))
             (Js.or_zero (Js.get counts (ext (name f))) + 1)%nat) o allowed) e)
  = (Js.or_zero (Js.get o e) + Spec.occurrences e allowed)%nat.
Proof.
  unfold Spec.occurrences.
  revert o. induction allowed as [|f allowed IH]; intros o; simpl; [lia|].
  rewrite IH, get_set, filter_cons.
  destruct (String.eqb (ext (name f)) e) eqn:He.
  - apply String.eqb_eq in He. rewrite decide_True by done.
    rewrite He. simpl. lia.
  - apply String.eqb_neq in He. by rewrite decide_False by done.
Qed.

Lemma tally_step_keys o allowed e :
  e ∈ Js.keys (foldl (λ counts f,
      Js.set counts (ext (name f))
             (Js.or_zero (Js.get counts (ext (name f))) + 1)%nat) o allowed)
  ↔ e ∈ Js.keys o ∨ ∃ f, f ∈ allowed ∧ ext (name f) = e.
Proof.
  revert o. induction allowed as [|f allowed IH]; intros o; simpl.
  - set_solver.
  - rewrite IH, keys_set. set_solver.
Qed.

(** The tally counts, for every token, the allowed files that carry it;
    its keys are the tokens that occur. *)
Lemma availableExtensions_count allowed e :
  Js.or_zero (Js.get (availableExtensions allowed) e)
  = Spec.occurrences e allowed.
Proof. apply tally_step_count. Qed.

Lemma availableExtensions_keys allowed e :
  e ∈ Js.keys (availableExtensions allowed)
  ↔ ∃ f, f ∈ allowed ∧ ext (name f) = e.
Proof.
  unfold availableExtensions. rewrite tally_step_keys.
  unfold Js.keys. set_solver.
Qed.

Lemma isDefaultExt_spec e : isDefaultExt e ↔ e ∈ commonCodeExts.
Proof.
  unfold isDefaultExt.
  rewrite !orb_True, bool_decide_spec, !Is_true_true, !String.eqb_eq.
  split; [|by left; left].
  intros [[?| ->]| ->]; [done|..]; unfold commonCodeExts; set_solver.
Qed.

Lemma newSelection_step (sel : gset string) (ks : list string) e :
  e ∈ foldl (λ sel e, if isDefaultExt e then sel ∪ {[ e ]} else sel) sel ks
  ↔ e ∈ sel ∨ (e ∈ ks ∧ e ∈ commonCodeExts).
Proof.
  revert sel. induction ks as [|k ks IH]; intros sel; simpl.
  - set_solver.
  - rewrite IH. pose proof (isDefaultExt_spec k) as Hk.
    destruct (isDefaultExt k); set_solver.
Qed.

Lemma newSelection_elem (available : Js.Record_ nat) e :
  e ∈ newSelection available
  ↔ e ∈ commonCodeExts ∧ e ∈ Js.keys available.
Proof. unfold newSelection. rewrite newSelection_step. set_solver. Qed.

End tally.

(** ** The order of the extension chips *)

Section chips.
Implicit Types (x y : string * nat) (l : list (string * nat)) (n : nat).

Lemma chipCompare_le x y : Z.leb (chipCompare x y) 0 = true ↔ (y.2 ≤ x.2)%nat.
Proof. unfold chipCompare. rewrite Z.leb_le. lia. Qed.

Lemma sort_insert_perm x l : Js.sort_insert chipCompare x l ≡ₚ x :: l.
Proof.
  induction l as [|y l IH]; simpl; [done|].
  destruct (Z.leb _ _); [done|]. by rewrite IH, Permutation_swap.
Qed.

Lemma sort_perm l : Js.sort chipCompare l ≡ₚ l.
Proof.
  induction l as [|x l IH]; simpl; [done|].
  by rewrite sort_insert_perm, IH.
Qed.

Lemma sort_insert_sorted x l :
  StronglySorted Spec.count_desc l →
  StronglySorted Spec.count_desc (Js.sort_insert chipCompare x l).
Proof.
  induction 1 as [|y l Hl IH Hy]; simpl.
  { repeat constructor. }
  destruct (Z.leb (chipCompare x y) 0) eqn:Hxy.
  - apply chipCompare_le in Hxy.
    constructor; [by constructor|]. constructor; [done|].
    eapply Forall_impl; [exact Hy|]. unfold Spec.count_desc. lia.
  - assert (x.2 < y.2)%nat as Hlt.
    { destruct (decide (y.2 ≤ x.2)%nat) as [Hle|]; [|lia].
      apply chipCompare_le in Hle. congruence. }
    constructor; [done|]. rewrite sort_insert_perm.
    constructor; [unfold Spec.count_desc; lia|done].
Qed.

Lemma sort_sorted l : StronglySorted Spec.count_desc (Js.sort chipCompare l).
Proof.
  induction l as [|x l IH]; simpl; [constructor|].
  by apply sort_insert_sorted.
Qed.

(** Inserting does not reorder entries of equal count. *)
Lemma sort_insert_stable n x l :
  Spec.with_count n (Js.sort_insert chipCompare x l)
  = Spec.with_count n (x :: l).
Proof.
  unfold Spec.with_count. induction l as [|y l IH]; simpl; [done|].
  destruct (Z.leb (chipCompare x y) 0) eqn:Hxy; [done|].
  assert (x.2 < y.2)%nat as Hlt.
  { destruct (decide (y.2 ≤ x.2)%nat) as [Hle|]; [|lia].
    apply chipCompare_le in Hle. congruence. }
  rewrite (filter_cons _ y), IH, !(filter_cons _ x), (filter_cons _ y).
  repeat case_decide; (done || lia).
Qed.

Lemma sort_stable n l :
  Spec.with_count n (Js.sort chipCompare l) = Spec.with_count n l.
Proof.
  induction l as [|x l IH]; simpl; [done|].
  rewrite sort_insert_stable. unfold Spec.with_count in *.
  by rewrite !filter_cons, IH.
Qed.

(** A list in descending count order is determined by its classes of
    equal count. *)
Lemma count_classes_determine l1 l2 :
  StronglySorted Spec.count_desc l1 →
  StronglySorted Spec.count_desc l2 →
  (∀ n, Spec.with_count n l1 = Spec.with_count n l2) →
  l1 = l2.
Proof.
  unfold Spec.with_count.
  intros Hl1. revert l2.
  induction Hl1 as [|x l1 Hl1 IH Hx]; intros l2 Hl2 Hcls.
  - destruct l2 as [|y l2]; [done|].
    specialize (Hcls y.2). by rewrite filter_cons_True in Hcls.
  - destruct Hl2 as [|y l2 Hl2 Hy].
    { specialize (Hcls x.2). by rewrite filter_cons_True in Hcls. }
    assert (x.2 ≤ y.2)%nat as Hxy.
    { assert (x ∈ filter (λ e, e.2 = x.2) (y :: l2)) as Hin.
      { rewrite <-Hcls, filter_cons_True by done. set_solver. }
      apply list_elem_of_filter in Hin as [_ Hin].
      apply elem_of_cons in Hin as [->|Hin]; [done|].
      rewrite Forall_forall in Hy. apply (Hy _ Hin). }
    assert (y.2 ≤ x.2)%nat as Hyx.
    { assert (y ∈ filter (λ e, e.2 = y.2) (x :: l1)) as Hin.
      { rewrite Hcls, filter_cons_True by done. set_solver. }
      apply list_elem_of_filter in Hin as [_ Hin].
      apply elem_of_cons in Hin as [->|Hin]; [done|].
      rewrite Forall_forall in Hx. apply (Hx _ Hin). }
    assert (x = y) as <-.
    { pose proof (Hcls x.2) as Hc.
      rewrite !filter_cons_True in Hc by lia. by injection Hc. }
    f_equal. apply IH; [done|]. intros n. specialize (Hcls n).
    rewrite !filter_cons in Hcls. case_decide; [by injection Hcls|done].
Qed.

End chips.

(** * The claims *)

Section source_order.
Implicit Types (m : CompiledMatcher) (lines : list string).

Lemma in_source_order_empty : Spec.in_source_order empty.
Proof. intros i r. simpl. by rewrite lookup_nil. Qed.

Lemma add_lines_order m m' lines :
  foldl add_line (Ok m) lines = Ok m' →
  Spec.in_source_order m → Spec.in_source_order m'.
Proof.
  revert m. induction lines as [|line lines IH]; intros m; simpl.
  { by intros [= ->]. }
  destruct (parse_line (length (rules m)) line) as [| |p] eqn:Hp.
  - apply IH.
  - by rewrite foldl_add_line_Fail.
  - intros Hm' Hm. apply (IH _ Hm'). intros i r. simpl.
    rewrite lookup_app_Some, list_lookup_singleton_Some.
    intros [?|(? & ? & <-)]; [by apply Hm|].
    rewrite (parse_line_Parsed_order _ _ _ Hp). lia.
Qed.

Lemma build_in_source_order (patternSources : list string) m :
  build patternSources = Ok m → Spec.in_source_order m.
Proof.
  intros Hm. eapply add_lines_order; [exact Hm|].
  apply in_source_order_empty.
Qed.

Lemma isIgnored_no_match m path :
  Forall (λ r, rule_matches r path = false) (rules m) →
  isIgnored m path = false.
Proof.
  intros Hm. rewrite isIgnored_deciding_rule. unfold Spec.deciding_rule.
  assert (last (filter (λ r, rule_matches r path) (rules m)) = None) as ->;
    [|done].
  apply last_filter_None. eapply Forall_impl; [exact Hm|].
  intros r Hr. by apply Is_true_false.
Qed.

Lemma isIgnored_has_rule m path :
  isIgnored m path = true →
  ∃ r, r ∈ rules m ∧ rule_matches r path = true ∧ negated r = false.
Proof.
  rewrite isIgnored_deciding_rule.
  destruct (Spec.deciding_rule m path) as [r|] eqn:Hr; [|done].
  apply last_filter_Some in Hr as (l1 & l2 & Hm & Hmatch & _).
  intros Hneg. exists r. split_and!.
  - rewrite Hm. set_solver.
  - by apply Is_true_true.
  - by destruct (negated r).
Qed.

Lemma build_blank_sources (patternSources : list string) :
  Forall (λ line, is_blank line || is_comment line = true)
         (source_lines patternSources) →
  build patternSources = Ok empty.
Proof.
  unfold build, add. generalize (source_lines patternSources).
  intros lines Hlines. induction Hlines as [|line lines Hline _ IH];
    [done|].
  simpl. unfold parse_line. by rewrite Hline.
Qed.

End source_order.

(** C1.  For every ordered pattern list and every relative path, the parsed
    rules are in source order and the last rule that matches the path (the
    matching rule of greatest source order) decides the outcome: the path is
    ignored exactly when that rule is not negated, so a later negated rule
    that matches re-includes a path an earlier rule excluded.  For the
    pattern list [*.log], [!keep.log], [keep.log] is not ignored and
    [debug.log] is; the same holds when [!keep.log] is the discovered
    content that follows the component's defaults. *)
Theorem isIgnored_last_match_decides :
  (∃ m, build ["*.log"; "!keep.log"] = Ok m
        ∧ isIgnored m "keep.log" = false
        ∧ isIgnored m "debug.log" = true)
  ∧ (∃ m, ignoreFilter (Some "!keep.log") = Ok m
          ∧ isIgnored m "keep.log" = false
          ∧ isIgnored m "debug.log" = true)
  ∧ ∀ (patternSources : list string) (m : CompiledMatcher) (path : string),
      build patternSources = Ok m →
      Spec.in_source_order m
      ∧ isIgnored m path
        = match Spec.deciding_rule m path with
          | Some r => negb (negated r)
          | None => false
          end
      ∧ (∀ r, Spec.deciding_rule m path = Some r ↔
              r ∈ rules m ∧ rule_matches r path
              ∧ ∀ r', r' ∈ rules m → rule_matches r' path →
                      (sourceOrder r' ≤ sourceOrder r)%nat)
      ∧ (∀ r, Spec.deciding_rule m path = Some r → negated r = true →
              isIgnored m path = false).
Proof.
  split_and!.
  { eexists. split; [reflexivity|]. split; reflexivity. }
  { eexists. split; [reflexivity|]. split; reflexivity. }
  intros patternSources m path Hm.
  pose proof (build_in_source_order _ _ Hm) as Hord.
  split_and!; [done|apply isIgnored_deciding_rule| |].
  - intros r. by apply deciding_rule_greatest.
  - intros r Hr Hneg. by rewrite isIgnored_deciding_rule, Hr, Hneg.
Qed.

Lemma isIgnored_last_match_decides_witness :
  build ["*.log"; "!keep.log"]
  = Ok (mkMatcher [mkPattern "*.log" false false false 0;
                   mkPattern "keep.log" false false true 1])
  ∧ Spec.deciding_rule
      (mkMatcher [mkPattern "*.log" false false false 0;
                  mkPattern "keep.log" false false true 1]) "keep.log"
    = Some (mkPattern "keep.log" false false true 1)
  ∧ isIgnored (mkMatcher [mkPattern "*.log" false false false 0;
                          mkPattern "keep.log" false false true 1])
              "keep.log" = false.
Proof.
  split; [reflexivity|]. split; [reflexivity|].
  destruct (proj2 (proj2 isIgnored_last_match_decides)
              ["*.log"; "!keep.log"]
              (mkMatcher [mkPattern "*.log" false false false 0;
                          mkPattern "keep.log" false false true 1])
              "keep.log" eq_refl) as (_ & _ & _ & Hreinclude).
  apply (Hreinclude (mkPattern "keep.log" false false true 1));
    reflexivity.
Defined.

(** C2.  The pattern [build/] (no leading slash) ignores both
    [build/output.txt] and [src/build/output.txt]; the root-anchored
    pattern [/build/] ignores [build/output.txt] but not
    [src/build/output.txt]. *)
Theorem directory_and_root_anchor :
  (∃ m, build ["build/"] = Ok m
        ∧ rules m = [mkPattern "build" false true false 0]
        ∧ isIgnored m "build/output.txt" = true
        ∧ isIgnored m "src/build/output.txt" = true)
  ∧ (∃ m, build ["/build/"] = Ok m
          ∧ rules m = [mkPattern "build" true true false 0]
          ∧ isIgnored m "build/output.txt" = true
          ∧ isIgnored m "src/build/output.txt" = false).
Proof.
  split; eexists; (split; [reflexivity|]); repeat split.
Qed.

(** C3, as stated, fails: with the empty pattern list the candidate
    [README], whose path has no root-folder segment to strip, is not ignored
    by the matcher and still is not among the allowed files. *)
Lemma empty_patterns_drop_a_candidate :
  build [] = Ok empty
  ∧ isIgnored empty (relativePath (mkFile "README" "README")) = false
  ∧ allowedFiles true (isIgnored empty) [mkFile "README" "README"]
    ≠ [mkFile "README" "README"].
Proof. split_and!; [reflexivity|reflexivity|discriminate]. Qed.

(** C3, amended.  With an empty pattern source (or whenever no rule matches
    the path) [isIgnored] is false for every path; filtering with the empty
    matcher keeps exactly the candidates whose path, after the root-folder
    segment is stripped, is not empty, so it leaves a candidate list
    unchanged when every candidate has such a path. *)
Theorem empty_patterns_ignore_nothing :
  build [] = Ok empty
  ∧ (∀ patternSources : list string,
       Forall (λ line, is_blank line || is_comment line = true)
              (source_lines patternSources) →
       build patternSources = Ok empty)
  ∧ (∀ path, isIgnored empty path = false)
  ∧ (∀ m path, Forall (λ r, rule_matches r path = false) (rules m) →
               isIgnored m path = false)
  ∧ (∀ files, allowedFiles true (isIgnored empty) files
              = filter (λ f, relativePath f ≠ "") files)
  ∧ (∀ files, Forall (λ f, relativePath f ≠ "") files →
              allowedFiles true (isIgnored empty) files = files).
Proof.
  assert (∀ files, allowedFiles true (isIgnored empty) files
                   = filter (λ f, relativePath f ≠ "") files) as Hfilter.
  { intros files. rewrite allowedFiles_on. apply list_filter_iff.
    intros f. by intuition. }
  split_and!; [done|apply build_blank_sources|done|apply isIgnored_no_match
               |done|].
  intros files Hfiles. rewrite Hfilter.
  induction Hfiles as [|f files Hf _ IH]; [done|].
  by rewrite filter_cons_True, IH.
Qed.

Lemma empty_patterns_ignore_nothing_witness :
  Forall (λ f, relativePath f ≠ "") [mkFile "a.rs" "proj/src/a.rs"]
  ∧ allowedFiles true (isIgnored empty) [mkFile "a.rs" "proj/src/a.rs"]
    = [mkFile "a.rs" "proj/src/a.rs"].
Proof.
  assert (Forall (λ f, relativePath f ≠ "") [mkFile "a.rs" "proj/src/a.rs"])
    as Hfiles by (repeat constructor; discriminate).
  split; [exact Hfiles|].
  destruct empty_patterns_ignore_nothing as (_ & _ & _ & _ & _ & Hkeep).
  exact (Hkeep _ Hfiles).
Defined.

(** C4.  With no discovered ignore-file content the default patterns alone
    make [node_modules/pkg/index.js] ignored and leave [src/index.js] not
    ignored.  The matching code has no special case for infrastructure
    paths: with no rules the same paths are not ignored, and every ignored
    path is matched by a rule, not negated, of the pattern source. *)
Theorem default_patterns_ignore_infrastructure :
  (∃ m, ignoreFilter None = Ok m
        ∧ glob <$> rules m = defaultPatterns
        ∧ isIgnored m "node_modules/pkg/index.js" = true
        ∧ isIgnored m "src/index.js" = false
        ∧ allowedFiles true (isIgnored m)
            [mkFile "index.js" "proj/node_modules/pkg/index.js";
             mkFile "config" "proj/.git/config";
             mkFile "index.js" "proj/src/index.js"]
          = [mkFile "index.js" "proj/src/index.js"])
  ∧ isIgnored empty "node_modules/pkg/index.js" = false
  ∧ isIgnored empty ".git/config" = false
  ∧ ∀ m path, isIgnored m path = true →
      ∃ r, r ∈ rules m ∧ rule_matches r path = true ∧ negated r = false.
Proof.
  split_and!; [|reflexivity|reflexivity|apply isIgnored_has_rule].
  eexists. split; [reflexivity|]. split_and!; reflexivity.
Qed.

Lemma default_patterns_ignore_infrastructure_witness :
  isIgnored (mkMatcher [mkPattern "node_modules" false false false 0])
            "node_modules/pkg/index.js" = true
  ∧ ∃ r, r ∈ [mkPattern "node_modules" false false false 0]
         ∧ rule_matches r "node_modules/pkg/index.js" = true
         ∧ negated r = false.
Proof.
  split; [reflexivity|].
  apply (proj2 (proj2 (proj2 default_patterns_ignore_infrastructure))
           (mkMatcher [mkPattern "node_modules" false false false 0])
           "node_modules/pkg/index.js").
  reflexivity.
Defined.

(** C5, as stated, fails: the candidate [README] (no root-folder segment)
    is one for which [isIgnored] is false, under the default patterns as
    under a matcher that ignores nothing, and it is not returned. *)
Lemma allowedFiles_drops_unignored_candidate :
  (∃ m, ignoreFilter None = Ok m
        ∧ isIgnored m (relativePath (mkFile "README" "README")) = false
        ∧ allowedFiles true (isIgnored m) [mkFile "README" "README"]
          ≠ filter (λ f, isIgnored m (relativePath f) = false)
                   [mkFile "README" "README"])
  ∧ allowedFiles true (λ _, false) [mkFile "README" "README"]
    ≠ filter (λ f, (λ _ : string, false) (relativePath f) = false)
             [mkFile "README" "README"].
Proof.
  split; [eexists; split; [reflexivity|split; [reflexivity|]]|];
    vm_compute; discriminate.
Qed.

(** C5, amended.  For every candidate list and matcher, with ignore
    filtering enabled the allowed files are exactly the subsequence, in the
    original order, of the candidates whose path after stripping the
    root-folder segment is not empty and for which [isIgnored] is false; the
    allowed length plus [totalIgnored] is the input length, [totalIgnored]
    being the number of candidates with an empty stripped path or an ignored
    one. *)
Theorem allowedFiles_subsequence (ignores : string → bool)
    (files : list File) :
  allowedFiles true ignores files
  = filter (λ f, relativePath f ≠ "" ∧ ignores (relativePath f) = false) files
  ∧ allowedFiles true ignores files `sublist_of` files
  ∧ (∀ f, f ∈ allowedFiles true ignores files ↔
          f ∈ files ∧ relativePath f ≠ "" ∧ ignores (relativePath f) = false)
  ∧ Z.of_nat (length (allowedFiles true ignores files))
    + totalIgnored files (allowedFiles true ignores files)
    = Z.of_nat (length files)
  ∧ totalIgnored files (allowedFiles true ignores files)
    = Z.of_nat (length (filter (λ f, relativePath f = ""
                                     ∨ ignores (relativePath f) = true) files)).
Proof.
  split_and!.
  - apply allowedFiles_on.
  - apply sublist_filter.
  - intros f. rewrite allowedFiles_on, list_elem_of_filter. tauto.
  - unfold totalIgnored. lia.
  - apply totalIgnored_count.
Qed.

(** C10.  With ignore filtering enabled, a candidate whose platform path
    contains no [/] has an empty path once the root-folder segment is
    stripped; it is excluded from the allowed files whatever the matcher
    is, and it is counted in [totalIgnored]. *)
Theorem rootless_candidates_are_dropped (ignores : string → bool)
    (files : list File) (f : File) :
  f ∈ files →
  Js.includes "/" (webkitRelativePath f) = false →
  relativePath f = ""
  ∧ (f ∉ allowedFiles true ignores files)
  ∧ (Z.of_nat (length (filter (λ f, Js.includes "/" (webkitRelativePath f)
                                    = false) files))
     ≤ totalIgnored files (allowedFiles true ignores files))
  ∧ (1 ≤ shownIgnored true files (allowedFiles true ignores files)).
Proof.
  intros Hin Hf.
  pose proof (relativePath_no_slash f Hf) as Hrel.
  assert (Z.of_nat (length (filter (λ f, Js.includes "/" (webkitRelativePath f)
                                         = false) files))
          ≤ totalIgnored files (allowedFiles true ignores files)) as Hcount.
  { rewrite totalIgnored_count. apply inj_le, length_filter_mono.
    intros f' Hf'. left. by apply relativePath_no_slash. }
  split_and!; [done| |done|].
  - rewrite allowedFiles_on, list_elem_of_filter. by intros [[] _].
  - unfold shownIgnored. etrans; [|exact Hcount].
    assert (f ∈ filter (λ f, Js.includes "/" (webkitRelativePath f) = false)
                       files) as Hfin by by apply list_elem_of_filter.
    destruct (filter _ files); [by apply elem_of_nil in Hfin|simpl; lia].
Qed.

Lemma rootless_candidates_are_dropped_witness :
  mkFile "README" "README"
    ∈ [mkFile "README" "README"; mkFile "a.rs" "proj/a.rs"]
  ∧ Js.includes "/" (webkitRelativePath (mkFile "README" "README")) = false
  ∧ (mkFile "README" "README"
       ∉ allowedFiles true (isIgnored empty)
           [mkFile "README" "README"; mkFile "a.rs" "proj/a.rs"])
  ∧ (1 ≤ shownIgnored true
           [mkFile "README" "README"; mkFile "a.rs" "proj/a.rs"]
           (allowedFiles true (isIgnored empty)
              [mkFile "README" "README"; mkFile "a.rs" "proj/a.rs"])).
Proof.
  assert (mkFile "README" "README"
            ∈ [mkFile "README" "README"; mkFile "a.rs" "proj/a.rs"]) as Hin
    by (apply elem_of_cons; by left).
  destruct (rootless_candidates_are_dropped (isIgnored empty)
              [mkFile "README" "README"; mkFile "a.rs" "proj/a.rs"]
              (mkFile "README" "README") Hin eq_refl)
    as (_ & Hout & _ & Hshown).
  split_and!; [exact Hin|reflexivity|exact Hout|exact Hshown].
Defined.

(** The token starts with a dot or is the sentinel: it is never a
    canonical array index, so the tally's keys are enumerated in insertion
    order. *)
Lemma ext_shape (fname : string) :
  ext fname = "no-ext" ∨ ∃ e, ext fname = String "." e.
Proof.
  unfold ext. destruct (Js.includes "." fname); [right|by left].
  destruct (Js.pop _); simpl; eauto.
Qed.

(** C6, as stated, fails: the code does not lower-case the token; for
    [Main.RS] it is [.RS], not [.rs]. *)
Lemma ext_is_not_lower_cased :
  ext "Main.RS" = ".RS"
  ∧ Spec.extension_token "Main.RS" = ".rs"
  ∧ ext "Main.RS" ≠ Spec.extension_token "Main.RS".
Proof. split_and!; [reflexivity|reflexivity|discriminate]. Qed.

(** C6, amended.  For every candidate name the extension token used for
    tallying and for resolving the import set is the substring after the
    last [.] of the name, prefixed with [.], in the letter case of the name;
    when the name contains no [.] it is the sentinel [no-ext].  (The token
    of the specification is the lower-casing of this one.) *)
Theorem ext_is_suffix_after_last_dot (fname : string) :
  (Js.includes "." fname = false → ext fname = "no-ext")
  ∧ (∀ pre suf, fname = pre +:+ String "." suf →
                Js.includes "." suf = false → ext fname = "." +:+ suf)
  ∧ ext fname = (if Js.includes "." fname
                 then "." +:+ Spec.after_last "." fname else "no-ext")
  ∧ Spec.extension_token fname = Spec.lower (ext fname)
  ∧ (∀ allowed, Js.or_zero (Js.get (availableExtensions allowed) (ext fname))
                = length (filter (λ f, ext (name f) = ext fname) allowed))
  ∧ (∀ allowed sel f, name f = fname →
       (f ∈ finalFilesToImport allowed sel ↔ f ∈ allowed ∧ ext fname ∈ sel)).
Proof.
  assert (∀ pre suf, fname = pre +:+ String "." suf →
                     Js.includes "." suf = false → ext fname = "." +:+ suf)
    as Hsuf.
  { intros pre suf -> Hsuf. unfold ext.
    by rewrite includes_app_sep, pop_split_app_sep. }
  assert (ext fname = (if Js.includes "." fname
                       then "." +:+ Spec.after_last "." fname else "no-ext"))
    as Hext.
  { destruct (Js.includes "." fname) eqn:Hdot; [|unfold ext; by rewrite Hdot].
    destruct (includes_true_split _ _ Hdot) as (pre & suf & Heq & Hs).
    rewrite (Hsuf pre suf Heq Hs), Heq. by rewrite after_last_app_sep. }
  split_and!; [|done|done| | |].
  - intros Hdot. unfold ext. by rewrite Hdot.
  - rewrite Hext. unfold Spec.extension_token.
    by destruct (Js.includes "." fname).
  - intros allowed. apply availableExtensions_count.
  - intros allowed sel f <-. unfold finalFilesToImport.
    rewrite list_elem_of_filter. tauto.
Qed.

Lemma ext_is_suffix_after_last_dot_witness :
  (Js.includes "." "README" = false ∧ ext "README" = "no-ext")
  ∧ ("archive.tar.GZ" = "archive.tar" +:+ String "." "GZ"
     ∧ Js.includes "." "GZ" = false
     ∧ ext "archive.tar.GZ" = ".GZ").
Proof.
  split; (split; [reflexivity|]).
  - apply (proj1 (ext_is_suffix_after_last_dot "README")). reflexivity.
  - split; [reflexivity|].
    apply (proj1 (proj2 (ext_is_suffix_after_last_dot "archive.tar.GZ"))
             "archive.tar" "GZ"); reflexivity.
Defined.

(** C7.  The default selection is exactly the intersection of the fixed
    allow-list [commonCodeExts] with the keys of the extension tally, and the
    import set is the allowed candidates whose extension token is in the
    selection, in their original order.  For the allowed files [a.rs],
    [b.py], [c.bin], [README] the default selection is [.rs], [.py] and the
    import set is [a.rs], [b.py]. *)
Theorem default_selection_and_import_set :
  (∀ available : Js.Record_ nat,
     newSelection available
     = list_to_set commonCodeExts ∩ list_to_set (Js.keys available))
  ∧ (∀ allowed (sel : gset string),
       finalFilesToImport allowed sel
       = filter (λ f, ext (name f) ∈ sel) allowed
       ∧ finalFilesToImport allowed sel `sublist_of` allowed
       ∧ ∀ f, f ∈ finalFilesToImport allowed sel
              ↔ f ∈ allowed ∧ ext (name f) ∈ sel)
  ∧ (Js.keys (availableExtensions
                [mkFile "a.rs" "proj/a.rs"; mkFile "b.py" "proj/b.py";
                 mkFile "c.bin" "proj/c.bin"; mkFile "README" "proj/README"])
     = [".rs"; ".py"; ".bin"; "no-ext"]
     ∧ newSelection (availableExtensions
                [mkFile "a.rs" "proj/a.rs"; mkFile "b.py" "proj/b.py";
                 mkFile "c.bin" "proj/c.bin"; mkFile "README" "proj/README"])
       = {[ ".rs"; ".py" ]}
     ∧ finalFilesToImport
         [mkFile "a.rs" "proj/a.rs"; mkFile "b.py" "proj/b.py";
          mkFile "c.bin" "proj/c.bin"; mkFile "README" "proj/README"]
         {[ ".rs"; ".py" ]}
       = [mkFile "a.rs" "proj/a.rs"; mkFile "b.py" "proj/b.py"]).
Proof.
  split_and!.
  - intros available. apply set_eq. intros e.
    rewrite newSelection_elem, elem_of_intersection, !elem_of_list_to_set.
    done.
  - intros allowed sel. split_and!; [done|apply sublist_filter|].
    intros f. unfold finalFilesToImport. rewrite list_elem_of_filter. tauto.
  - reflexivity.
  - vm_compute. reflexivity.
  - vm_compute. reflexivity.
Qed.

(** C8, as stated, fails: two extensions with the same count are shown in
    the order in which they entered the tally; for the allowed files [b.py],
    [a.js] the chips are [.py] then [.js], which is not ascending. *)
Lemma chips_ties_not_by_token :
  extensionChips
    (availableExtensions [mkFile "b.py" "proj/b.py"; mkFile "a.js" "proj/a.js"])
  = [(".py", 1%nat); (".js", 1%nat)]
  ∧ ¬ Sorted Spec.count_then_token
        (extensionChips
           (availableExtensions
              [mkFile "b.py" "proj/b.py"; mkFile "a.js" "proj/a.js"])).
Proof.
  split; [reflexivity|].
  intros Hsorted. vm_compute in Hsorted.
  apply Sorted_inv in Hsorted as [_ Hhd]. apply HdRel_inv in Hhd.
  destruct Hhd as [Hlt|[_ Hle]]; [simpl in Hlt; lia|discriminate].
Qed.

(** C8, amended.  The chips are the entries of the tally sorted by
    descending count; entries of equal count keep the order they have in the
    tally (the order of first occurrence among the allowed files).  The
    displayed order is determined by these two properties, so it is
    deterministic for every tally. *)
Theorem chips_sorted_by_count_stable (available : Js.Record_ nat) :
  StronglySorted Spec.count_desc (extensionChips available)
  ∧ extensionChips available ≡ₚ Js.entries available
  ∧ (∀ n, Spec.with_count n (extensionChips available)
          = Spec.with_count n (Js.entries available))
  ∧ (∀ chips, StronglySorted Spec.count_desc chips →
              (∀ n, Spec.with_count n chips
                    = Spec.with_count n (Js.entries available)) →
              chips = extensionChips available).
Proof.
  unfold extensionChips. split_and!.
  - apply sort_sorted.
  - apply sort_perm.
  - intros n. apply sort_stable.
  - intros chips Hsorted Hcls.
    apply count_classes_determine; [done|apply sort_sorted|].
    intros n. by rewrite Hcls, sort_stable.
Qed.

Lemma chips_sorted_by_count_stable_witness :
  [(".rs", 2%nat); (".py", 1%nat); (".js", 1%nat)]
  = extensionChips [(".py", 1%nat); (".rs", 2%nat); (".js", 1%nat)].
Proof.
  apply (proj2 (proj2 (proj2 (chips_sorted_by_count_stable
           [(".py", 1%nat); (".rs", 2%nat); (".js", 1%nat)])))).
  - repeat constructor; unfold Spec.count_desc; simpl; lia.
  - intros n. unfold Spec.with_count, Js.entries.
    rewrite !filter_cons, !filter_nil. simpl.
    repeat case_decide; (done || lia).
Defined.

Section failures.
Implicit Types (m : CompiledMatcher) (lines : list string).

Lemma build_Fail_unterminated (patternSources : list string) e :
  build patternSources = Fail e →
  ∃ line, line ∈ source_lines patternSources
          ∧ e = UnterminatedClass line
          ∧ is_blank line = false ∧ is_comment line = false
          ∧ Spec.unterminated_class line.
Proof.
  intros (line & n & Hin & -> & Hrej)%add_lines_Fail.
  apply parse_line_Rejected in Hrej as (? & ? & ?). by exists line.
Qed.

Lemma build_Ok_without_unterminated (patternSources : list string) :
  (∀ line, line ∈ source_lines patternSources →
           is_blank line = false → is_comment line = false →
           ¬ Spec.unterminated_class line) →
  ∃ m, build patternSources = Ok m
       ∧ Spec.in_source_order m
       ∧ ∀ r, r ∈ rules m →
              ∃ line, line ∈ source_lines patternSources
                      ∧ parse_line (sourceOrder r) line = Parsed r.
Proof.
  intros Hlines.
  destruct (add_lines_Ok empty (source_lines patternSources))
    as (m & Hm & Hord & Hrules).
  { intros line n Hin (? & ? & ?)%parse_line_Rejected.
    by apply (Hlines line). }
  exists m. split_and!; [done|apply Hord, in_source_order_empty|].
  intros r [Hr|?]%Hrules; [|done]. by apply elem_of_nil in Hr.
Qed.

(** A rejected line makes the fold fail, wherever it stands. *)
Lemma add_lines_rejected m lines line n :
  line ∈ lines → parse_line n line = Rejected →
  ∃ e, foldl add_line (Ok m) lines = Fail e.
Proof.
  intros Hin Hrej. revert m.
  induction lines as [|l lines IH]; intros m;
    [by apply elem_of_nil in Hin|].
  simpl. apply elem_of_cons in Hin as [<-|Hin].
  - assert (parse_line (length (rules m)) line = Rejected) as ->.
    { apply parse_line_Rejected. by apply parse_line_Rejected in Hrej. }
    rewrite foldl_add_line_Fail. eauto.
  - destruct (parse_line (length (rules m)) l); try by apply IH.
    rewrite foldl_add_line_Fail. eauto.
Qed.

Lemma build_Fail_iff (patternSources : list string) :
  (∃ e, build patternSources = Fail e)
  ↔ ∃ line, line ∈ source_lines patternSources
            ∧ is_blank line = false ∧ is_comment line = false
            ∧ Spec.unterminated_class line.
Proof.
  split.
  - intros [e (line & ? & ? & ? & ? & ?)%build_Fail_unterminated].
    by exists line.
  - intros (line & Hin & Hrule).
    apply (add_lines_rejected empty _ line 0 Hin).
    by apply parse_line_Rejected.
Qed.

Lemma parse_line_Parsed_tokens n line r :
  parse_line n line = Parsed r → is_Some (glob_tokens (glob r)).
Proof.
  unfold parse_line. destruct (_ || _); [done|].
  destruct (strip_trailing _ _).2 as [|a g]; [done|].
  destruct (glob_tokens (String a g)) eqn:Htok; [|done].
  intros [= <-]. simpl. by rewrite Htok.
Qed.

(** Every rule of a built matcher has its tokens: matching never meets a
    glob it cannot read. *)
Lemma build_rules_tokens (patternSources : list string) m r :
  build patternSources = Ok m → r ∈ rules m →
  is_Some (glob_tokens (glob r)).
Proof.
  intros Hm Hr.
  destruct (build_Ok_without_unterminated patternSources)
    as (m' & Hm' & _ & Hrules).
  { intros line Hin Hb Hc Hopen.
    assert (∃ e, build patternSources = Fail e) as [e He].
    { apply build_Fail_iff. by exists line. }
    congruence. }
  assert (m' = m) as -> by congruence.
  destruct (Hrules r Hr) as (line & _ & Hline).
  by apply parse_line_Parsed_tokens in Hline.
Qed.

(** [split] never yields the empty array, so [pop] is never
    [undefined] in [ext]. *)
Lemma pop_split_is_Some c s : is_Some (Js.pop (Js.split c s)).
Proof.
  unfold Js.pop. pose proof (split_not_nil c s) as Hs.
  destruct (Js.split c s) as [|p ps] eqn:Hsp; [done|].
  apply last_is_Some. done.
Qed.

Lemma default_lines_parse :
  Forall (λ line, ∀ n, parse_line n line ≠ Rejected)
         (source_lines defaultPatterns).
Proof.
  assert (source_lines defaultPatterns = defaultPatterns) as ->
    by reflexivity.
  unfold defaultPatterns. repeat constructor; intros n; discriminate.
Qed.

Lemma ignoreFilter_Fail gitIgnoreContent e :
  ignoreFilter gitIgnoreContent = Fail e →
  ∃ content line,
    gitIgnoreContent = Some content
    ∧ line ∈ Js.split "010" content
    ∧ e = UnterminatedClass line
    ∧ Spec.unterminated_class line.
Proof.
  rewrite ignoreFilter_build.
  intros (line & n & Hin & -> & Hrej)%add_lines_Fail.
  rewrite source_lines_app in Hin. apply elem_of_app in Hin as [Hin|Hin].
  { pose proof default_lines_parse as Hdef.
    rewrite Forall_forall in Hdef. by destruct (Hdef line Hin n). }
  apply parse_line_Rejected in Hrej as (_ & _ & Hopen).
  destruct gitIgnoreContent as [content|]; simpl in Hin;
    [|by apply elem_of_nil in Hin].
  destruct (Js.truthy content); [|by apply elem_of_nil in Hin].
  exists content, line. split_and!; [done| |done|done].
  unfold source_lines in Hin. simpl in Hin. by rewrite app_nil_r in Hin.
Qed.

(** The evaluation of the rules does not fail when every rule has its
    tokens, and then has the value of [isIgnored]. *)
Lemma Throwing_isIgnored_tokens m path :
  Forall (λ r, is_Some (glob_tokens (glob r))) (rules m) →
  Throwing.isIgnored m path = Some (isIgnored m path).
Proof.
  unfold Throwing.isIgnored, isIgnored.
  generalize false. induction (rules m) as [|r l IH]; intros init Hl;
    [done|].
  apply Forall_cons in Hl as [[ts Hr] Hl]. simpl.
  unfold Throwing.rule_matches at 2. rewrite Hr. simpl.
  by apply IH.
Qed.

Lemma Throwing_isIgnored_fails_from acc l path :
  acc = None →
  foldl (λ (acc : option bool) (r : Pattern),
           ignored ← acc;
           matched ← Throwing.rule_matches r path;
           Some (if matched : bool then negb (negated r) else ignored)) acc l
  = None.
Proof. intros ->. by induction l. Qed.

(** It fails as soon as one rule has no tokens. *)
Lemma Throwing_isIgnored_no_tokens m path r :
  r ∈ rules m → glob_tokens (glob r) = None →
  Throwing.isIgnored m path = None.
Proof.
  unfold Throwing.isIgnored. generalize (Some false).
  induction (rules m) as [|r0 l IH]; intros acc Hin Hr;
    [by apply elem_of_nil in Hin|].
  simpl. apply elem_of_cons in Hin as [<-|Hin]; [|by apply IH].
  apply Throwing_isIgnored_fails_from.
  unfold Throwing.rule_matches. rewrite Hr. by destruct acc.
Qed.

Lemma Throwing_isIgnored_built (patternSources : list string) m path :
  build patternSources = Ok m →
  Throwing.isIgnored m path = Some (isIgnored m path).
Proof.
  intros Hm. apply Throwing_isIgnored_tokens, Forall_forall.
  intros r Hr. by apply (build_rules_tokens patternSources m).
Qed.

Lemma Throwing_filter_None {A} (cb : A → option bool) (l : list A) :
  Throwing.filter cb l = None ↔ ∃ x, x ∈ l ∧ cb x = None.
Proof.
  induction l as [|x l IH]; simpl.
  - split; [done|]. by intros (x & ?%elem_of_nil & _).
  - destruct (cb x) as [keep|] eqn:Hx; simpl.
    + destruct (Throwing.filter cb l) as [rest|]; simpl.
      * split; [done|]. intros (y & [->|Hy]%elem_of_cons & Hcb);
          [congruence|].
        assert (None = Some rest) as Habs; [|done].
        symmetry. apply IH. by exists y.
      * split; [|done]. intros _.
        destruct (proj1 IH eq_refl) as (y & Hy & Hcb).
        exists y. split; [by apply elem_of_cons; right|done].
    + split; [|done]. intros _. exists x. split; [|done].
      apply elem_of_cons. by left.
Qed.

Lemma Throwing_filter_Some {A} (cb : A → option bool) (g : A → bool)
    (l : list A) :
  Forall (λ x, cb x = Some (g x)) l →
  Throwing.filter cb l = Some (filter (λ x, g x) l).
Proof.
  induction 1 as [|x l Hx _ IH]; [done|].
  simpl. rewrite Hx, IH. simpl. rewrite filter_cons.
  by destruct (g x).
Qed.

Lemma Throwing_keeps_None (ignores : string → option bool) file :
  Throwing.keeps ignores file = None
  ↔ relativePath file ≠ "" ∧ ignores (relativePath file) = None.
Proof.
  unfold Throwing.keeps. destruct (relativePath file) as [|a rp]; simpl.
  - split; [done|]. by intros [[] _].
  - rewrite fmap_None. split; [done|]. by intros [_ ?].
Qed.

Lemma Throwing_keeps_Some (ignores : string → option bool)
    (g : string → bool) file :
  (relativePath file ≠ "" →
   ignores (relativePath file) = Some (g (relativePath file))) →
  Throwing.keeps ignores file = Some (keeps g file).
Proof.
  unfold Throwing.keeps, keeps.
  destruct (relativePath file) as [|a rp]; simpl; [done|].
  intros Hg. by rewrite Hg.
Qed.

Lemma Throwing_ext fname : Throwing.ext fname = Some (ext fname).
Proof.
  unfold Throwing.ext, ext. destruct (Js.includes "." fname); [|done].
  by destruct (pop_split_is_Some "." fname) as [e ->].
Qed.

End failures.

(** C9.  [build] fails exactly when some rule line (neither blank nor a
    comment) has an unterminated character class, and the error names such a
    line.  A pattern source without such a line always builds; its rules
    are parsed from its lines, in order, and each has its tokens; a
    malformed line that is skipped (such as [!] or [/]) leaves the result
    what it is without the line.  The component's [ignoreFilter] can fail
    only on the discovered content.  The other operations cannot fail:
    with the failures kept, [isIgnored] on a built matcher always has a
    value (it has none on a rule without tokens, which [build] never
    produces); the allowed files fail only where the matcher's [ignores]
    fails on a non-empty relative path (the guard never hands it the empty
    path), so they never fail on a built matcher; and the extension token
    of the tally and of the import set is never built from [undefined]. *)
Theorem build_fails_only_when_class_unterminated :
  (∀ patternSources : list string,
     (∃ e, build patternSources = Fail e)
     ↔ ∃ line, line ∈ source_lines patternSources
               ∧ is_blank line = false ∧ is_comment line = false
               ∧ Spec.unterminated_class line)
  ∧ (∀ (patternSources : list string) e,
       build patternSources = Fail e →
       ∃ line, line ∈ source_lines patternSources
               ∧ e = UnterminatedClass line
               ∧ is_blank line = false ∧ is_comment line = false
               ∧ Spec.unterminated_class line)
  ∧ (∀ patternSources : list string,
       (∀ line, line ∈ source_lines patternSources →
                is_blank line = false → is_comment line = false →
                ¬ Spec.unterminated_class line) →
       ∃ m, build patternSources = Ok m
            ∧ Spec.in_source_order m
            ∧ ∀ r, r ∈ rules m →
                   ∃ line, line ∈ source_lines patternSources
                           ∧ parse_line (sourceOrder r) line = Parsed r)
  ∧ (∀ (before after : list string) line,
       Js.includes "010" line = false →
       parse_line 0 line = Skipped →
       build (before ++ line :: after) = build (before ++ after))
  ∧ (parse_line 0 "!" = Skipped ∧ parse_line 0 "/" = Skipped
     ∧ parse_line 0 "!/" = Skipped ∧ parse_line 0 "# note" = Skipped
     ∧ build ["*.log"; "!"; "/"; "tmp/"] = build ["*.log"; "tmp/"]
     ∧ build ["a[bc"] = Fail (UnterminatedClass "a[bc"))
  ∧ (∀ gitIgnoreContent e,
       ignoreFilter gitIgnoreContent = Fail e →
       ∃ content line,
         gitIgnoreContent = Some content
         ∧ line ∈ Js.split "010" content
         ∧ e = UnterminatedClass line
         ∧ Spec.unterminated_class line)
  ∧ (∀ (patternSources : list string) m r,
       build patternSources = Ok m → r ∈ rules m →
       is_Some (glob_tokens (glob r)))
  ∧ (∀ (patternSources : list string) m path,
       build patternSources = Ok m →
       Throwing.isIgnored m path = Some (isIgnored m path))
  ∧ (∀ m path r, r ∈ rules m → glob_tokens (glob r) = None →
                 Throwing.isIgnored m path = None)
  ∧ (∀ (ignores : string → option bool) files,
       Throwing.allowedFiles true ignores files = None
       ↔ ∃ f, f ∈ files ∧ relativePath f ≠ ""
              ∧ ignores (relativePath f) = None)
  ∧ (∀ (ignores : string → option bool) files,
       Throwing.allowedFiles false ignores files = Some files)
  ∧ (∀ (ignores : string → option bool) (total : string → bool)
       respectGitIgnore files,
       (∀ f, f ∈ files → relativePath f ≠ "" →
             ignores (relativePath f) = Some (total (relativePath f))) →
       Throwing.allowedFiles respectGitIgnore ignores files
       = Some (allowedFiles respectGitIgnore total files))
  ∧ (∀ (patternSources : list string) m respectGitIgnore files,
       build patternSources = Ok m →
       Throwing.allowedFiles respectGitIgnore (Throwing.isIgnored m) files
       = Some (allowedFiles respectGitIgnore (isIgnored m) files))
  ∧ (∀ fname, is_Some (Js.pop (Js.split "." fname))
              ∧ Throwing.ext fname = Some (ext fname))
  ∧ (∀ files : list File,
       mapM (λ f, Throwing.ext (name f)) files
       = Some ((λ f, ext (name f)) <$> files)).
Proof.
  assert (∀ (ignores : string → option bool) (total : string → bool)
            respectGitIgnore files,
            (∀ f, f ∈ files → relativePath f ≠ "" →
                  ignores (relativePath f) = Some (total (relativePath f))) →
            Throwing.allowedFiles respectGitIgnore ignores files
            = Some (allowedFiles respectGitIgnore total files)) as Htotal.
  { intros ignores total [] files Hfiles; [|done].
    unfold Throwing.allowedFiles, allowedFiles.
    apply Throwing_filter_Some, Forall_forall. intros f Hf.
    apply Throwing_keeps_Some. by apply Hfiles. }
  split_and!; eauto using build_Fail_iff, build_Fail_unterminated,
    build_Ok_without_unterminated, build_skips, ignoreFilter_Fail,
    build_rules_tokens, Throwing_isIgnored_built,
    Throwing_isIgnored_no_tokens, pop_split_is_Some, Throwing_ext.
  - intros ignores files. unfold Throwing.allowedFiles.
    rewrite Throwing_filter_None.
    split; intros (f & Hf & Hcb); exists f; (split; [done|]);
      by apply Throwing_keeps_None.
  - intros files. apply mapM_Some. induction files as [|f files IH];
      constructor; [apply Throwing_ext|done].
Qed.

Lemma build_fails_only_when_class_unterminated_witness :
  (∃ line, line ∈ source_lines ["*.log"; "a[bc"]
           ∧ UnterminatedClass "a[bc" = UnterminatedClass line
           ∧ is_blank line = false ∧ is_comment line = false
           ∧ Spec.unterminated_class line)
  ∧ build (["*.log"] ++ "!/" :: ["tmp/"]) = build (["*.log"] ++ ["tmp/"])
  ∧ (build ["*.log"] = Ok (mkMatcher [mkPattern "*.log" false false false 0])
     ∧ Throwing.isIgnored
         (mkMatcher [mkPattern "*.log" false false false 0]) "debug.log"
       = Some true)
  ∧ (mkPattern "a[" false false false 0
       ∈ rules (mkMatcher [mkPattern "a[" false false false 0])
     ∧ glob_tokens "a[" = None
     ∧ Throwing.isIgnored
         (mkMatcher [mkPattern "a[" false false false 0]) "x" = None)
  ∧ Throwing.allowedFiles true
      (λ p, if Js.truthy p then Some false else None)
      [mkFile "README" "README"; mkFile "a.rs" "proj/a.rs"]
    = Some [mkFile "a.rs" "proj/a.rs"].
Proof.
  destruct build_fails_only_when_class_unterminated
    as (_ & Hfail & _ & Hskip & _ & _ & _ & Hbuilt & Hnone & _ & _
        & Htotal & _).
  split_and!.
  - apply (Hfail ["*.log"; "a[bc"]). reflexivity.
  - apply Hskip; reflexivity.
  - reflexivity.
  - apply (Hbuilt ["*.log"]). reflexivity.
  - apply elem_of_cons. by left.
  - reflexivity.
  - apply (Hnone _ _ (mkPattern "a[" false false false 0));
      [apply elem_of_cons; by left|reflexivity].
  - apply (Htotal _ (λ _, false) true).
    intros f _ Hf. by destruct (relativePath f).
Defined.

(** * Further properties of the import pipeline *)

Import ImportControls.

(** ** Paths: what stripping the root folder does *)

Section paths.
Implicit Types (s root rest : string) (sep : ascii) (f : File).

Lemma join_split sep s : Js.join (String sep "") (Js.split sep s) = s.
Proof.
  induction s as [|a s IH]; [done|]. simpl.
  destruct (Ascii.eqb a sep) eqn:Ha.
  - apply Ascii.eqb_eq in Ha as ->.
    destruct (Js.split sep s) as [|piece rest] eqn:Hs;
      [by destruct (split_not_nil sep s)|].
    change (Js.join (String sep "") ("" :: piece :: rest))
      with ("" +:+ String sep "" +:+ Js.join (String sep "") (piece :: rest)).
    by rewrite IH.
  - destruct (Js.split sep s) as [|piece rest] eqn:Hs;
      [by destruct (split_not_nil sep s)|].
    rewrite <-IH. by destruct rest.
Qed.

Lemma split_root sep root rest :
  Js.includes sep root = false →
  Js.split sep (root +:+ String sep rest) = root :: Js.split sep rest.
Proof. intros Hroot. by rewrite split_app_sep, (split_no_sep _ _ Hroot). Qed.

Lemma includes_first sep s :
  Js.includes sep s = true →
  ∃ root rest, s = root +:+ String sep rest ∧ Js.includes sep root = false.
Proof.
  induction s as [|a s IH]; simpl; [done|].
  destruct (Ascii.eqb a sep) eqn:Ha.
  - intros _. apply Ascii.eqb_eq in Ha as ->. by exists "", s.
  - intros (root & rest & -> & Hroot)%IH.
    exists (String a root), rest. simpl. by rewrite Ha.
Qed.

Lemma relativePath_root f root rest :
  webkitRelativePath f = root +:+ String "/" rest →
  Js.includes "/" root = false →
  relativePath f = rest.
Proof.
  intros Hf Hroot. unfold relativePath.
  rewrite Hf, (split_root _ _ _ Hroot). apply (join_split "/").
Qed.

End paths.

(** X1.  Stripping is exact: when the platform path is a root folder name
    (without [/]), a [/] and a rest, the path handed to the matcher is that
    rest, whatever it contains; and every platform path that has a [/] is of
    this form, its own relative path being the rest. *)
Theorem relativePath_strips_root_folder (f : File) :
  (∀ root rest, webkitRelativePath f = root +:+ String "/" rest →
                Js.includes "/" root = false → relativePath f = rest)
  ∧ (Js.includes "/" (webkitRelativePath f) = true →
     ∃ root, Js.includes "/" root = false
             ∧ webkitRelativePath f = root +:+ String "/" (relativePath f)).
Proof.
  split; [apply relativePath_root|].
  intros (root & rest & Hf & Hroot)%includes_first.
  exists root. split; [done|].
  by rewrite (relativePath_root f root rest Hf Hroot).
Qed.

Lemma relativePath_strips_root_folder_witness :
  webkitRelativePath (mkFile "a.rs" "proj/src/a.rs")
  = "proj" +:+ String "/" "src/a.rs"
  ∧ Js.includes "/" "proj" = false
  ∧ relativePath (mkFile "a.rs" "proj/src/a.rs") = "src/a.rs"
  ∧ ∃ root, Js.includes "/" root = false
            ∧ webkitRelativePath (mkFile "a.rs" "proj/src/a.rs")
              = root +:+ String "/" (relativePath (mkFile "a.rs" "proj/src/a.rs")).
Proof.
  split; [reflexivity|]. split; [reflexivity|]. split.
  - apply (proj1 (relativePath_strips_root_folder
                    (mkFile "a.rs" "proj/src/a.rs")) "proj" "src/a.rs");
      reflexivity.
  - apply (proj2 (relativePath_strips_root_folder
                    (mkFile "a.rs" "proj/src/a.rs"))).
    reflexivity.
Defined.

(** X2.  The candidates that the filter's guard drops whatever the patterns
    are, are exactly those whose platform path has no [/] or ends with its
    first [/] (a root folder name followed by nothing). *)
Theorem relativePath_empty_iff (f : File) :
  relativePath f = ""
  ↔ Js.includes "/" (webkitRelativePath f) = false
    ∨ ∃ root, Js.includes "/" root = false
              ∧ webkitRelativePath f = root +:+ String "/" "".
Proof.
  split.
  - intros Hempty.
    destruct (Js.includes "/" (webkitRelativePath f)) eqn:Hslash; [|by left].
    right. apply includes_first in Hslash as (root & rest & Hf & Hroot).
    exists root. split; [done|].
    by rewrite <-Hempty, (relativePath_root f root rest Hf Hroot).
  - intros [Hslash|(root & Hroot & Hf)].
    + by apply relativePath_no_slash.
    + by apply (relativePath_root f root "").
Qed.



(** ** The tally as a whole *)

Section tally_whole.
Implicit Types (o : Js.Record_ nat) (k e : string) (allowed : list File).

Lemma availableExtensions_foldl allowed :
  availableExtensions allowed = foldl tally_step [] allowed.
Proof. done. Qed.

Lemma keys_set_present o k v :
  k ∈ Js.keys o → Js.keys (Js.set o k v) = Js.keys o.
Proof.
  unfold Js.keys. induction o as [|[k0 v0] o IH]; simpl.
  - by intros ?%elem_of_nil.
  - destruct (String.eqb k0 k) eqn:Hk0; [done|]. simpl.
    intros [->|Hk]%elem_of_cons.
    + by rewrite String.eqb_refl in Hk0.
    + f_equal. by apply IH.
Qed.

Lemma keys_set_absent o k v :
  k ∉ Js.keys o → Js.keys (Js.set o k v) = Js.keys o ++ [k].
Proof.
  unfold Js.keys. induction o as [|[k0 v0] o IH]; simpl; [done|].
  intros Hk. apply not_elem_of_cons in Hk as [Hne Hk].
  destruct (String.eqb k0 k) eqn:Hk0.
  - apply String.eqb_eq in Hk0. congruence.
  - simpl. f_equal. by apply IH.
Qed.

Lemma get_None_keys o k : Js.get o k = None ↔ k ∉ Js.keys o.
Proof.
  unfold Js.keys. induction o as [|[k0 v0] o IH]; simpl.
  - split; [intros _; apply not_elem_of_nil|done].
  - rewrite not_elem_of_cons. destruct (String.eqb k0 k) eqn:Hk0.
    + apply String.eqb_eq in Hk0 as ->. split; [done|]. by intros [[] _].
    + apply String.eqb_neq in Hk0. rewrite IH. split; [|tauto].
      intros ?. split; [congruence|done].
Qed.

Lemma chipTotal_set (P : string → Prop) `{!∀ e, Decision (P e)} o k :
  chipTotal P (Js.set o k (Js.or_zero (Js.get o k) + 1)%nat)
  = (chipTotal P o + (if decide (P k) then 1 else 0))%nat.
Proof.
  unfold chipTotal. induction o as [|[k0 v0] o IH]; cbn [Js.set Js.get].
  - rewrite filter_cons, !filter_nil. simpl. by destruct (decide (P k)).
  - destruct (String.eqb k0 k) eqn:Hk0.
    + apply String.eqb_eq in Hk0 as ->.
      rewrite !filter_cons. simpl. destruct (decide (P k)); simpl; lia.
    + rewrite !(filter_cons _ (k0, v0)). simpl.
      destruct (decide (P k0)); rewrite ?fmap_cons; cbn [sum_list_with];
        rewrite IH; simpl; lia.
Qed.

Lemma chipTotal_foldl (P : string → Prop) `{!∀ e, Decision (P e)}
    o allowed :
  chipTotal P (foldl tally_step o allowed)
  = (chipTotal P o
     + length (filter (λ f, P (ext (name f))) allowed))%nat.
Proof.
  revert o. induction allowed as [|f allowed IH]; intros o; simpl; [lia|].
  rewrite IH. unfold tally_step. rewrite chipTotal_set, filter_cons.
  destruct (decide (P (ext (name f)))); simpl; lia.
Qed.

Lemma keys_foldl o allowed :
  Js.keys (foldl tally_step o allowed)
  = Js.keys o ++ firstOccurrences (Js.keys o) ((ext ∘ name) <$> allowed).
Proof.
  revert o. induction allowed as [|f allowed IH]; intros o; simpl.
  - by rewrite app_nil_r.
  - rewrite IH. unfold tally_step.
    destruct (decide (ext (name f) ∈ Js.keys o)) as [Hin|Hout].
    + by rewrite bool_decide_eq_true_2, keys_set_present.
    + rewrite bool_decide_eq_false_2, keys_set_absent by done.
      by rewrite <-app_assoc.
Qed.

Lemma firstOccurrences_NoDup (seen l : list string) :
  NoDup seen → NoDup (seen ++ firstOccurrences seen l).
Proof.
  revert seen. induction l as [|e l IH]; intros seen Hseen; simpl.
  - by rewrite app_nil_r.
  - destruct (decide (e ∈ seen)) as [Hin|Hout].
    + rewrite bool_decide_eq_true_2 by done. by apply IH.
    + rewrite bool_decide_eq_false_2 by done.
      change (e :: firstOccurrences (seen ++ [e]) l)
        with ([e] ++ firstOccurrences (seen ++ [e]) l).
      rewrite app_assoc. apply IH.
      apply NoDup_app. split_and!; [done| |apply NoDup_singleton].
      intros x Hx ->%list_elem_of_singleton. done.
Qed.

Lemma tally_positive o allowed :
  Forall (λ entry, 1 ≤ entry.2)%nat o →
  Forall (λ entry, 1 ≤ entry.2)%nat (foldl tally_step o allowed).
Proof.
  revert o. induction allowed as [|f allowed IH]; intros o Ho; [done|].
  simpl. apply IH. unfold tally_step.
  generalize (ext (name f)). intros k.
  generalize (Js.or_zero (Js.get o k)). intros n.
  induction Ho as [|[k0 v0] o Hv Ho IHo]; simpl.
  - repeat constructor. simpl. lia.
  - destruct (String.eqb k0 k); constructor; simpl; auto; lia.
Qed.

Lemma filter_all {A} (P : A → Prop) `{!∀ x, Decision (P x)} (l : list A) :
  Forall P l → filter P l = l.
Proof.
  induction 1 as [|x l Hx _ IH]; [done|]. by rewrite filter_cons_True, IH.
Qed.

Lemma filter_ext_in {A} (P Q : A → Prop)
    `{!∀ x, Decision (P x), !∀ x, Decision (Q x)} (l : list A) :
  (∀ x, x ∈ l → P x ↔ Q x) → filter P l = filter Q l.
Proof.
  induction l as [|x l IH]; intros HPQ; [done|].
  rewrite !filter_cons, IH by (intros y Hy; apply HPQ; set_solver).
  pose proof (HPQ x) as Hx.
  destruct (decide (P x)), (decide (Q x)); set_solver.
Qed.

End tally_whole.

Section tally_facts.
Implicit Types (o : Js.Record_ nat) (k e : string) (allowed : list File).

Lemma get_NoDup o k v :
  NoDup (Js.keys o) → (k, v) ∈ o → Js.get o k = Some v.
Proof.
  unfold Js.keys. induction o as [|[k0 v0] o IH]; simpl.
  - by intros _ ?%elem_of_nil.
  - rewrite NoDup_cons. intros [Hk0 Hnd] [[= -> ->]|Hin]%elem_of_cons.
    + by rewrite String.eqb_refl.
    + destruct (String.eqb k0 k) eqn:Heq; [|by apply IH].
      apply String.eqb_eq in Heq as ->. destruct Hk0.
      apply list_elem_of_fmap. by exists (k, v).
Qed.

Lemma availableExtensions_NoDup allowed :
  NoDup (Js.keys (availableExtensions allowed)).
Proof.
  rewrite availableExtensions_foldl, keys_foldl.
  apply (firstOccurrences_NoDup []), NoDup_nil_2.
Qed.

Lemma chipTotal_all (chips : list (string * nat)) :
  chipTotal (λ _, True) chips = sum_list chips.*2.
Proof. unfold chipTotal. by rewrite filter_all by by apply Forall_true. Qed.

Lemma chipTotal_availableExtensions (P : string → Prop)
    `{!∀ e, Decision (P e)} allowed :
  chipTotal P (availableExtensions allowed)
  = length (filter (λ f, P (ext (name f))) allowed).
Proof. rewrite availableExtensions_foldl, chipTotal_foldl. done. Qed.

Lemma chipTotal_Permutation (P : string → Prop) `{!∀ e, Decision (P e)}
    (l1 l2 : list (string * nat)) :
  l1 ≡ₚ l2 → chipTotal P l1 = chipTotal P l2.
Proof. intros Hl. unfold chipTotal. by rewrite Hl. Qed.

End tally_facts.

Lemma availableExtensions_sum (allowed : list File) :
  sum_list (availableExtensions allowed).*2 = length allowed.
Proof.
  rewrite <-chipTotal_all, chipTotal_availableExtensions.
  by rewrite filter_all by by apply Forall_true.
Qed.

Lemma default_import_filter (allowed : list File) :
  finalFilesToImport allowed (newSelection (availableExtensions allowed))
  = filter (λ f, ext (name f) ∈ commonCodeExts) allowed.
Proof.
  unfold finalFilesToImport. apply filter_ext_in. intros f Hf.
  rewrite newSelection_elem, availableExtensions_keys. split; [tauto|].
  intros ?. split; [done|]. by exists f.
Qed.

Lemma filter_filter_sublist {A} (P Q : A → Prop)
    `{!∀ x, Decision (P x), !∀ x, Decision (Q x)} (l : list A) :
  filter P (filter Q l) `sublist_of` filter P l.
Proof.
  induction l as [|x l IH]; [done|].
  rewrite (filter_cons Q). destruct (decide (Q x)).
  - rewrite !filter_cons. destruct (decide (P x)); [by constructor|done].
  - rewrite filter_cons. destruct (decide (P x)); [by constructor|done].
Qed.

(** X4.  The tally partitions the allowed files: its keys are pairwise
    distinct, every count is at least one and is the number of allowed
    files with that extension token, and the counts add up to the number of
    allowed files. *)
Theorem tally_partitions_allowed_files (allowed : list File) :
  NoDup (Js.keys (availableExtensions allowed))
  ∧ Forall (λ entry, (1 ≤ entry.2)%nat
                     ∧ entry.2 = Spec.occurrences entry.1 allowed)
           (availableExtensions allowed)
  ∧ sum_list (availableExtensions allowed).*2 = length allowed.
Proof.
  pose proof (availableExtensions_NoDup allowed) as Hnd.
  split_and!; [done| |].
  - pose proof (tally_positive [] allowed (Forall_nil_2 _)) as Hpos.
    rewrite <-availableExtensions_foldl in Hpos.
    rewrite Forall_forall in Hpos. apply Forall_forall.
    intros [k v] Hin. split; [by apply (Hpos (k, v))|]. simpl.
    rewrite <-availableExtensions_count, (get_NoDup _ k v Hnd Hin). done.
  - apply availableExtensions_sum.
Qed.

(** X5.  The keys of the tally are the extension tokens in the order of
    their first occurrence among the allowed files: one more allowed file
    appends its token at the end when the token is new and leaves the keys
    as they are otherwise. *)
Theorem tally_keys_in_first_occurrence_order (allowed : list File)
    (f : File) :
  Js.keys (availableExtensions allowed)
  = firstOccurrences [] ((ext ∘ name) <$> allowed)
  ∧ Js.keys (availableExtensions (allowed ++ [f]))
    = Js.keys (availableExtensions allowed)
      ++ (if decide (ext (name f) ∈ Js.keys (availableExtensions allowed))
          then [] else [ext (name f)]).
Proof.
  split.
  - by rewrite availableExtensions_foldl, keys_foldl.
  - rewrite !availableExtensions_foldl, foldl_snoc. unfold tally_step at 1.
    destruct (decide _) as [Hin|Hout].
    + by rewrite keys_set_present, app_nil_r.
    + by rewrite keys_set_absent.
Qed.

(** X6.  The message "No files matching current ignore rules." is shown
    exactly when no file is allowed. *)
Theorem noFilesMessage_iff_nothing_allowed (allowed : list File) :
  noFilesMessage (availableExtensions allowed) = true ↔ allowed = [].
Proof.
  unfold noFilesMessage. rewrite Nat.eqb_eq, length_zero_iff_nil. split.
  - intros Hkeys. destruct allowed as [|f allowed]; [done|].
    assert (ext (name f) ∈ Js.keys (availableExtensions (f :: allowed)))
      as Hin by (apply availableExtensions_keys; exists f; set_solver).
    rewrite Hkeys in Hin. by apply elem_of_nil in Hin.
  - by intros ->.
Qed.

(** X7.  "Select All" makes the import set all the allowed files, in their
    order; "Clear" makes it empty and disables the import button. *)
Theorem selectAll_imports_every_allowed_file (allowed : list File) :
  finalFilesToImport allowed (selectAll (availableExtensions allowed))
  = allowed
  ∧ finalFilesToImport allowed clearSelection = []
  ∧ importDisabled (finalFilesToImport allowed clearSelection) = true.
Proof.
  assert (finalFilesToImport allowed clearSelection = []) as Hclear.
  { unfold finalFilesToImport, clearSelection.
    induction allowed as [|f allowed IH]; [done|].
    rewrite filter_cons_False; [done|]. apply not_elem_of_empty. }
  split_and!; [|done|by rewrite Hclear].
  unfold finalFilesToImport, selectAll. apply filter_all, Forall_forall.
  intros f Hf. apply elem_of_list_to_set, availableExtensions_keys.
  by exists f.
Qed.

(** X8.  The "To Import" number is the sum of the counts on the selected
    chips, in the tally as in the displayed order of the chips. *)
Theorem import_count_is_selected_chip_total (allowed : list File)
    (selectedExtensions : gset string) :
  length (finalFilesToImport allowed selectedExtensions)
  = chipTotal (λ e, e ∈ selectedExtensions) (availableExtensions allowed)
  ∧ chipTotal (λ e, e ∈ selectedExtensions)
              (extensionChips (availableExtensions allowed))
    = length (finalFilesToImport allowed selectedExtensions).
Proof.
  assert (length (finalFilesToImport allowed selectedExtensions)
          = chipTotal (λ e, e ∈ selectedExtensions)
                      (availableExtensions allowed)) as Htotal.
  { by rewrite chipTotal_availableExtensions. }
  split; [done|]. rewrite Htotal. apply chipTotal_Permutation.
  unfold extensionChips, Js.entries. apply sort_perm.
Qed.

(** X9.  Toggling an extension twice restores the selection; one toggle
    changes the membership of that extension only, and it changes the "To
    Import" number by exactly the count shown on the extension's chip: up
    when the extension was not selected, down when it was. *)
Theorem toggle_changes_import_by_chip_count (allowed : list File)
    (selectedExtensions : gset string) (e : string) :
  handleToggleExt (handleToggleExt selectedExtensions e) e
  = selectedExtensions
  ∧ (e ∈ handleToggleExt selectedExtensions e ↔ e ∉ selectedExtensions)
  ∧ (∀ e', e' ≠ e →
           e' ∈ handleToggleExt selectedExtensions e
           ↔ e' ∈ selectedExtensions)
  ∧ (length (finalFilesToImport allowed
                                (handleToggleExt selectedExtensions e))
     + (if decide (e ∈ selectedExtensions)
        then Js.or_zero (Js.get (availableExtensions allowed) e)
        else 0)
     = length (finalFilesToImport allowed selectedExtensions)
       + (if decide (e ∈ selectedExtensions)
          then 0
          else Js.or_zero (Js.get (availableExtensions allowed) e)))%nat.
Proof.
  split_and!.
  - unfold handleToggleExt. apply set_eq. intros x.
    destruct (decide (e ∈ selectedExtensions)) as [Hin|Hout].
    + rewrite (bool_decide_eq_true_2 _ Hin).
      rewrite bool_decide_eq_false_2 by set_solver.
      destruct (decide (x = e)); set_solver.
    + rewrite (bool_decide_eq_false_2 _ Hout).
      rewrite bool_decide_eq_true_2 by set_solver.
      set_solver.
  - unfold handleToggleExt. case_bool_decide; set_solver.
  - intros e' He'. unfold handleToggleExt. case_bool_decide; set_solver.
  - rewrite availableExtensions_count. unfold Spec.occurrences.
    unfold finalFilesToImport, handleToggleExt.
    induction allowed as [|f allowed IH]; [by destruct (decide _)|].
    rewrite !filter_cons.
    destruct (decide (e ∈ selectedExtensions)) as [Hin|Hout].
    + rewrite (bool_decide_eq_true_2 _ Hin) in IH |- *.
      destruct (decide (ext (name f) = e)) as [Hf|Hf].
      * rewrite decide_False, decide_True by set_solver. simpl. lia.
      * destruct (decide (ext (name f) ∈ selectedExtensions)).
        -- rewrite decide_True by set_solver. simpl. lia.
        -- rewrite decide_False by set_solver. simpl. lia.
    + rewrite (bool_decide_eq_false_2 _ Hout) in IH |- *.
      destruct (decide (ext (name f) = e)) as [Hf|Hf].
      * rewrite decide_True, decide_False by set_solver. simpl. lia.
      * destruct (decide (ext (name f) ∈ selectedExtensions)).
        -- rewrite decide_True by set_solver. simpl. lia.
        -- rewrite decide_False by set_solver. simpl. lia.
Qed.

Lemma toggle_changes_import_by_chip_count_witness :
  ".py" ≠ ".rs"
  ∧ (".py" ∈ handleToggleExt {[ ".rs" ]} ".rs"
     ↔ ".py" ∈ ({[ ".rs" ]} : gset string)).
Proof.
  split; [discriminate|].
  apply (proj1 (proj2 (proj2 (toggle_changes_import_by_chip_count
                                [] {[ ".rs" ]} ".rs")))).
  discriminate.
Defined.

(** X10.  With the default selection the import set is the allowed files
    whose extension token is in [commonCodeExts], in their order; a file
    whose name has no [.] is never in it. *)
Theorem default_import_set_is_common_code (allowed : list File) :
  finalFilesToImport allowed (newSelection (availableExtensions allowed))
  = filter (λ f, ext (name f) ∈ commonCodeExts) allowed
  ∧ ∀ f, Js.includes "." (name f) = false →
         f ∉ finalFilesToImport allowed
               (newSelection (availableExtensions allowed)).
Proof.
  pose proof (default_import_filter allowed) as Heq.
  split; [done|].
  intros f Hdot. rewrite Heq, list_elem_of_filter. intros [Hcommon _].
  unfold ext in Hcommon. rewrite Hdot in Hcommon.
  unfold commonCodeExts in Hcommon. set_solver.
Qed.

Lemma default_import_set_is_common_code_witness :
  Js.includes "." (name (mkFile "Makefile" "proj/Makefile")) = false
  ∧ (mkFile "Makefile" "proj/Makefile"
       ∉ finalFilesToImport
           [mkFile "Makefile" "proj/Makefile"; mkFile "a.rs" "proj/a.rs"]
           (newSelection
              (availableExtensions
                 [mkFile "Makefile" "proj/Makefile";
                  mkFile "a.rs" "proj/a.rs"]))).
Proof.
  split; [reflexivity|].
  apply (proj2 (default_import_set_is_common_code
                  [mkFile "Makefile" "proj/Makefile";
                   mkFile "a.rs" "proj/a.rs"])).
  reflexivity.
Defined.

(** X11.  The numbers of the stats bar are consistent whether or not ignore
    filtering is on: "Ignored" lies between zero and "Total Found" and is
    "Total Found" less the allowed files, "To Import" plus "Ignored" never
    exceeds "Total Found", and the counts on all the chips plus "Ignored"
    add up to "Total Found". *)
Theorem stats_bar_is_consistent (respectGitIgnore : bool)
    (ignores : string → bool) (files : list File)
    (selectedExtensions : gset string) :
  (0 ≤ shownIgnored respectGitIgnore files
         (allowedFiles respectGitIgnore ignores files)
   ≤ Z.of_nat (length files))
  ∧ (shownIgnored respectGitIgnore files
       (allowedFiles respectGitIgnore ignores files)
     = Z.of_nat (length files)
       - Z.of_nat (length (allowedFiles respectGitIgnore ignores files)))
  ∧ (Z.of_nat (length (finalFilesToImport
                         (allowedFiles respectGitIgnore ignores files)
                         selectedExtensions))
     + shownIgnored respectGitIgnore files
         (allowedFiles respectGitIgnore ignores files)
     ≤ Z.of_nat (length files))
  ∧ (Z.of_nat (sum_list (availableExtensions
                           (allowedFiles respectGitIgnore ignores files)).*2)
     + shownIgnored respectGitIgnore files
         (allowedFiles respectGitIgnore ignores files)
     = Z.of_nat (length files)).
Proof.
  rewrite availableExtensions_sum.
  pose proof (length_filter (λ f, ext (name f) ∈ selectedExtensions)
                (allowedFiles respectGitIgnore ignores files)) as Hfinal.
  fold (finalFilesToImport (allowedFiles respectGitIgnore ignores files)
          selectedExtensions) in Hfinal.
  destruct respectGitIgnore; unfold shownIgnored, totalIgnored.
  - pose proof (length_filter (λ file, keeps ignores file) files) as Hallowed.
    fold (allowedFiles true ignores files) in Hallowed. lia.
  - simpl in *. lia.
Qed.

(** X12.  The language that [App] stores for an imported file is the
    modal's extension token exactly when the name contains a [.]; for a
    name without one it is [.] followed by the whole name, never the
    sentinel [no-ext]. *)
Theorem language_agrees_with_token_iff_dotted (fname : string) :
  (Js.includes "." fname = true → App.language fname = ext fname)
  ∧ (Js.includes "." fname = false →
     App.language fname = "." +:+ fname ∧ ext fname = "no-ext")
  ∧ (App.language fname = ext fname ↔ Js.includes "." fname = true)
  ∧ App.language fname ≠ "no-ext".
Proof.
  assert (Js.includes "." fname = false →
          App.language fname = "." +:+ fname ∧ ext fname = "no-ext") as Hno.
  { intros Hdot. unfold App.language, ext.
    by rewrite Hdot, (split_no_sep _ _ Hdot). }
  assert (App.language fname ≠ "no-ext") as Hne.
  { unfold App.language. by destruct (Js.pop _). }
  split_and!; [|done| |done].
  - intros Hdot. unfold App.language, ext. by rewrite Hdot.
  - destruct (Js.includes "." fname) eqn:Hdot.
    + split; [done|]. intros _. unfold App.language, ext. by rewrite Hdot.
    + destruct (Hno eq_refl) as [_ Hext]. rewrite Hext. split; [done|done].
Qed.

Lemma language_agrees_with_token_iff_dotted_witness :
  (Js.includes "." "main.rs" = true ∧ App.language "main.rs" = ext "main.rs")
  ∧ (Js.includes "." "Makefile" = false
     ∧ App.language "Makefile" = ".Makefile" ∧ ext "Makefile" = "no-ext").
Proof.
  split; (split; [reflexivity|]).
  - apply (proj1 (language_agrees_with_token_iff_dotted "main.rs")).
    reflexivity.
  - apply (proj1 (proj2 (language_agrees_with_token_iff_dotted "Makefile"))).
    reflexivity.
Defined.

(** X13.  Respecting the ignore rules can only remove files from the import
    set: for the same selection, and also for the default selections, the
    import set with filtering on is a subsequence of the import set with
    filtering off. *)
Theorem ignore_filter_only_removes (ignores : string → bool)
    (files : list File) (selectedExtensions : gset string) :
  finalFilesToImport (allowedFiles true ignores files) selectedExtensions
    `sublist_of`
    finalFilesToImport (allowedFiles false ignores files) selectedExtensions
  ∧ finalFilesToImport (allowedFiles true ignores files)
      (newSelection (availableExtensions (allowedFiles true ignores files)))
    `sublist_of`
    finalFilesToImport (allowedFiles false ignores files)
      (newSelection (availableExtensions (allowedFiles false ignores files))).
Proof.
  rewrite !default_import_filter. unfold finalFilesToImport, allowedFiles.
  split; apply filter_filter_sublist.
Qed.
